(** * ReShade FX parser nodes (source/FX/ParserNodes.hpp)

    A shallow embedding of the syntax-tree header of the ReShade effect
    compiler: the semantic type descriptor [Nodes::Type] with its
    classification predicates, the node shapes with their default
    constructors, and the page-based [nodetree::memory_pool] together with
    [nodetree::make_node].

    Conventions.
    - [size_t] and [unsigned int] values are [N]; run-time [size_t]
      arithmetic is written with its wrap-around modulo 2^64 ([wrap]).
      The embedding is that of the 64-bit build: [sizeof(size_t)] and the
      size of a function pointer are 8, values are stored little-endian.
    - [int] values are [Z].
    - A pointer is [nullptr] or the address of a byte of a page buffer.
    - A member that a constructor leaves out of its initialiser list and
      whose type has no default constructor is [Indeterminate]. *)

From stdpp Require Import base numbers list strings.

Local Open Scope N_scope.

(** ** Addresses and members without an initialiser *)

(** An address inside the pool: the page (position in [_pages]) and the
    byte offset into that page's [memory]. *)
Inductive pointer :=
  | nullptr
  | Ptr (pg : nat) (off : N).

Global Instance pointer_eq_dec : EqDecision pointer.
Proof. solve_decision. Defined.

(** A scalar member after construction: a value, or indeterminate when the
    constructor does not mention it. *)
Inductive member (A : Type) :=
  | Indeterminate
  | Init (a : A).
Arguments Indeterminate {A}.
Arguments Init {A} a.

(** ** enum class nodeid *)

Module nodeid.
(** [Variable] is a keyword here: the enumerator is written [Variable_]. *)
Inductive t :=
  | unknown
  | LValue | Literal | Unary | Binary | Intrinsic | Conditional | Assignment
  | Sequence | Call | Constructor | Swizzle | FieldSelection | InitializerList
  | Compound | DeclaratorList | ExpressionStatement | If | Switch | Case | For
  | While | Return | Jump
  | Annotation | Variable_ | Struct | Function | Pass | Technique.

Global Instance eq_dec : EqDecision t.
Proof. solve_decision. Defined.
End nodeid.

(** ** struct Nodes::Type *)

Module Class.
(** [enum class Class] of [Nodes::Type], in declaration order. *)
Inductive t :=
  | Void | Bool | Int | Uint | Float
  | Sampler1D | Sampler2D | Sampler3D
  | Texture1D | Texture2D | Texture3D
  | Struct | String.

Global Instance eq_dec : EqDecision t.
Proof. solve_decision. Defined.

(** The underlying value of an enumerator: its position in the
    declaration, since no enumerator has an initialiser. *)
Definition value (c : t) : Z :=
  match c with
  | Void => 0 | Bool => 1 | Int => 2 | Uint => 3 | Float => 4
  | Sampler1D => 5 | Sampler2D => 6 | Sampler3D => 7
  | Texture1D => 8 | Texture2D => 9 | Texture3D => 10
  | Struct => 11 | String => 12
  end%Z.

(** [a >= b] and [a <= b] on a scoped enumeration compare the underlying
    values. *)
Definition geb (a b : t) : bool := (value b <=? value a)%Z.
Definition leb (a b : t) : bool := (value a <=? value b)%Z.
End Class.

Module Qualifier.
(** [enum Qualifier]: an unscoped enumeration used as a bit mask; a value
    of the type is any mask over the bits its enumerators span. *)
Definition t := N.

Definition Extern : t := N.shiftl 1 0.
Definition Static : t := N.shiftl 1 1.
Definition Uniform : t := N.shiftl 1 2.
Definition Volatile : t := N.shiftl 1 3.
Definition Precise : t := N.shiftl 1 4.
Definition In : t := N.shiftl 1 5.
Definition Out : t := N.shiftl 1 6.
Definition InOut : t := N.lor In Out.
Definition Const : t := N.shiftl 1 8.
Definition Linear : t := N.shiftl 1 10.
Definition NoPerspective : t := N.shiftl 1 11.
Definition Centroid : t := N.shiftl 1 12.
Definition NoInterpolation : t := N.shiftl 1 13.
End Qualifier.

(** [static_cast<unsigned int>(x)]: reduction modulo 2^32. *)
Definition to_unsigned (x : N) : N := x mod 2 ^ 32.

(** The data members of [Nodes::Type].  [Rows] and [Cols] are 4-bit
    bit-fields, [Definition_] is the [struct Struct *Definition] member
    ([Definition] is a keyword here). *)
Record Type_ := mkType {
  BaseClass : Class.t;
  Qualifiers : N;
  Rows : N;
  Cols : N;
  ArrayLength : Z;
  Definition_ : pointer
}.

Definition IsArray (ty : Type_) : bool :=
  negb (ArrayLength ty =? 0)%Z.

Definition IsMatrix (ty : Type_) : bool :=
  (1 <=? Rows ty) && (1 <? Cols ty).

Definition IsVector (ty : Type_) : bool :=
  (1 <? Rows ty) && negb (IsMatrix ty).

Definition IsVoid (ty : Type_) : bool :=
  bool_decide (BaseClass ty = Class.Void).

Definition IsBoolean (ty : Type_) : bool :=
  bool_decide (BaseClass ty = Class.Bool).

Definition IsIntegral (ty : Type_) : bool :=
  bool_decide (BaseClass ty = Class.Int) || bool_decide (BaseClass ty = Class.Uint).

Definition IsFloatingPoint (ty : Type_) : bool :=
  bool_decide (BaseClass ty = Class.Float).

Definition IsNumeric (ty : Type_) : bool :=
  IsBoolean ty || IsIntegral ty || IsFloatingPoint ty.

Definition IsScalar (ty : Type_) : bool :=
  negb (IsArray ty) && negb (IsMatrix ty) && negb (IsVector ty) && IsNumeric ty.

Definition IsTexture (ty : Type_) : bool :=
  Class.geb (BaseClass ty) Class.Texture1D && Class.leb (BaseClass ty) Class.Texture2D.

Definition IsSampler (ty : Type_) : bool :=
  Class.geb (BaseClass ty) Class.Sampler1D && Class.leb (BaseClass ty) Class.Sampler3D.

Definition IsStruct (ty : Type_) : bool :=
  bool_decide (BaseClass ty = Class.Struct).

Definition HasQualifier (ty : Type_) (qualifier : Qualifier.t) : bool :=
  N.land (Qualifiers ty) (to_unsigned qualifier) =? to_unsigned qualifier.

(** [Nodes::Type] declares no predicate for strings.  Where a statement
    speaks of a string outcome it is read as the test on [BaseClass] that
    the sibling [IsVoid] and [IsStruct] make for their classes. *)
Definition IsString (ty : Type_) : bool :=
  bool_decide (BaseClass ty = Class.String).

(** The nine classification outcomes of a type descriptor, and how many
    of them hold. *)
Definition outcomes (ty : Type_) : list bool :=
  [IsVoid ty; IsScalar ty; IsVector ty; IsMatrix ty; IsArray ty;
   IsStruct ty; IsTexture ty; IsSampler ty; IsString ty].

Definition holding (bs : list bool) : nat :=
  length (filter (λ b, b = true) bs).

(** [float4x4 m[2]] and a bare [texture3D]. *)
Definition float4x4_array : Type_ := mkType Class.Float 0 4 4 2 nullptr.
Definition texture3D : Type_ := mkType Class.Texture3D 0 0 0 0 nullptr.

(** ** The node shapes *)

Module Lexer.
(** [Lexer.hpp] is not part of the sources at hand: the type [location]
    and the value of [location()] are taken as given. *)
Class t := { location : Type; location_default : location }.
End Lexer.

Module shape.
(** The concrete structs of namespace [Nodes], one name per struct, as
    they are passed for [T] to [make_node<T>]. *)
Inductive t :=
  | LValue | Literal | Unary | Binary | Intrinsic | Conditional | Assignment
  | Sequence | Call | Constructor | Swizzle | FieldSelection | InitializerList
  | Compound | DeclaratorList | ExpressionStatement | If | Case | Switch | For
  | While | Return | Jump
  | Annotation | Variable_ | Struct | Function | Pass | Technique.

Global Instance eq_dec : EqDecision t.
Proof. solve_decision. Defined.

Definition all : list t :=
  [LValue; Literal; Unary; Binary; Intrinsic; Conditional; Assignment;
   Sequence; Call; Constructor; Swizzle; FieldSelection; InitializerList;
   Compound; DeclaratorList; ExpressionStatement; If; Case; Switch; For;
   While; Return; Jump;
   Annotation; Variable_; Struct; Function; Pass; Technique].

(** The class a struct is derived from, as its base-clause names it. *)
Inductive base := node | Expression | Statement | Declaration.

Global Instance base_eq_dec : EqDecision base.
Proof. solve_decision. Defined.

Definition base_of (s : t) : base :=
  match s with
  | LValue | Literal | Unary | Binary | Intrinsic | Conditional | Assignment
  | Sequence | Call | Constructor | Swizzle | FieldSelection
  | InitializerList => Expression
  | Compound | DeclaratorList | ExpressionStatement | If | Case | Switch
  | For | While | Return | Jump => Statement
  | Annotation => node
  | Variable_ | Struct | Function | Pass | Technique => Declaration
  end.

(** The enumerator with the name of the struct. *)
Definition tag (s : t) : nodeid.t :=
  match s with
  | LValue => nodeid.LValue | Literal => nodeid.Literal
  | Unary => nodeid.Unary | Binary => nodeid.Binary
  | Intrinsic => nodeid.Intrinsic | Conditional => nodeid.Conditional
  | Assignment => nodeid.Assignment | Sequence => nodeid.Sequence
  | Call => nodeid.Call | Constructor => nodeid.Constructor
  | Swizzle => nodeid.Swizzle | FieldSelection => nodeid.FieldSelection
  | InitializerList => nodeid.InitializerList
  | Compound => nodeid.Compound | DeclaratorList => nodeid.DeclaratorList
  | ExpressionStatement => nodeid.ExpressionStatement
  | If => nodeid.If | Case => nodeid.Case | Switch => nodeid.Switch
  | For => nodeid.For | While => nodeid.While | Return => nodeid.Return
  | Jump => nodeid.Jump
  | Annotation => nodeid.Annotation | Variable_ => nodeid.Variable_
  | Struct => nodeid.Struct | Function => nodeid.Function
  | Pass => nodeid.Pass | Technique => nodeid.Technique
  end.
End shape.

(** The capability families and what each adds to the node header. *)
Inductive family := ExpressionFamily | StatementFamily | DeclarationFamily.

Global Instance family_eq_dec : EqDecision family.
Proof. solve_decision. Defined.

Definition families : list family :=
  [ExpressionFamily; StatementFamily; DeclarationFamily].

Definition family_base (f : family) : shape.base :=
  match f with
  | ExpressionFamily => shape.Expression
  | StatementFamily => shape.Statement
  | DeclarationFamily => shape.Declaration
  end.

(** A shape belongs to a family when it is derived from the family's
    abstract struct. *)
Definition belongs (s : shape.t) (f : family) : bool :=
  bool_decide (shape.base_of s = family_base f).

Definition families_of (s : shape.t) : list family :=
  filter (λ f, belongs s f = true) families.

(** *** Operator enumerations *)

Module UnaryOp.
Inductive t :=
  | None | Negate | BitwiseNot | LogicalNot | Increase | Decrease
  | PostIncrease | PostDecrease | Cast.
End UnaryOp.

Module BinaryOp.
Inductive t :=
  | None | Add | Subtract | Multiply | Divide | Modulo | Less | Greater
  | LessOrEqual | GreaterOrEqual | Equal | NotEqual | LeftShift | RightShift
  | BitwiseOr | BitwiseXor | BitwiseAnd | LogicalOr | LogicalAnd
  | ElementExtract.
End BinaryOp.

Module IntrinsicOp.
Inductive t :=
  | None | Abs | Acos | All | Any | BitCastInt2Float | BitCastUint2Float
  | Asin | BitCastFloat2Int | BitCastFloat2Uint | Atan | Atan2 | Ceil | Clamp
  | Cos | Cosh | Cross | PartialDerivativeX | PartialDerivativeY | Degrees
  | Determinant | Distance | Dot | Exp | Exp2 | FaceForward | Floor | Frac
  | Frexp | Fwidth | Ldexp | Length | Lerp | Log | Log10 | Log2 | Mad | Max
  | Min | Modf | Mul | Normalize | Pow | Radians | Rcp | Reflect | Refract
  | Round | Rsqrt | Saturate | Sign | Sin | SinCos | Sinh | SmoothStep | Sqrt
  | Step | Tan | Tanh | Tex2D | Tex2DFetch | Tex2DGather | Tex2DGatherOffset
  | Tex2DGrad | Tex2DLevel | Tex2DLevelOffset | Tex2DOffset | Tex2DProj
  | Tex2DSize | Transpose | Trunc.
End IntrinsicOp.

Module AssignmentOp.
Inductive t :=
  | None | Add | Subtract | Multiply | Divide | Modulo | BitwiseAnd
  | BitwiseOr | BitwiseXor | LeftShift | RightShift.
End AssignmentOp.

Module JumpMode.
Inductive t := Break | Continue.
End JumpMode.

(** *** Variable::Properties and Pass::States *)

(** IEEE-754 binary32 values are kept as their bit patterns. *)
Definition float_zero : N := 0.
Definition FLT_MAX : N := 0x7F7FFFFF.

Module Properties.
(** The anonymous enumeration of [Variable::Properties]. *)
Definition NONE : N := 0.
Definition R8 : N := 50.
Definition R16F : N := 111.
Definition R32F : N := 114.
Definition RG8 : N := 51.
Definition RG16 : N := 34.
Definition RG16F : N := 112.
Definition RG32F : N := 115.
Definition RGBA8 : N := 32.
Definition RGBA16 : N := 36.
Definition RGBA16F : N := 113.
Definition RGBA32F : N := 116.
Definition DXT1 : N := 827611204.
Definition DXT3 : N := 861165636.
Definition DXT5 : N := 894720068.
Definition LATC1 : N := 826889281.
Definition LATC2 : N := 843666497.
Definition POINT : N := 1.
Definition LINEAR : N := POINT + 1.
Definition ANISOTROPIC : N := LINEAR + 1.
Definition WRAP : N := 1.
Definition REPEAT : N := 1.
Definition MIRROR : N := REPEAT + 1.
Definition CLAMP : N := MIRROR + 1.
Definition BORDER : N := CLAMP + 1.

Record t := mk {
  Texture : pointer;
  Width : N; Height : N; Depth : N; MipLevels : N;
  Format : N;
  SRGBTexture : bool;
  AddressU : N; AddressV : N; AddressW : N;
  MinFilter : N; MagFilter : N; MipFilter : N;
  MaxAnisotropy : N;
  MinLOD : N; MaxLOD : N; MipLODBias : N
}.

(** [Properties()]. *)
Definition ctor : t := {|
  Texture := nullptr;
  Width := 1; Height := 1; Depth := 1; MipLevels := 1;
  Format := RGBA8;
  SRGBTexture := false;
  AddressU := CLAMP; AddressV := CLAMP; AddressW := CLAMP;
  MinFilter := LINEAR; MagFilter := LINEAR; MipFilter := LINEAR;
  MaxAnisotropy := 1;
  MinLOD := float_zero; MaxLOD := FLT_MAX; MipLODBias := float_zero
|}.
End Properties.

Module States.
(** The anonymous enumeration of [Pass::States]. *)
Definition NONE : N := 0.
Definition ZERO : N := 0.
Definition ONE : N := 1.
Definition SRCCOLOR : N := ONE + 1.
Definition INVSRCCOLOR : N := SRCCOLOR + 1.
Definition SRCALPHA : N := INVSRCCOLOR + 1.
Definition INVSRCALPHA : N := SRCALPHA + 1.
Definition DESTALPHA : N := INVSRCALPHA + 1.
Definition INVDESTALPHA : N := DESTALPHA + 1.
Definition DESTCOLOR : N := INVDESTALPHA + 1.
Definition INVDESTCOLOR : N := DESTCOLOR + 1.
Definition ADD : N := 1.
Definition SUBTRACT : N := ADD + 1.
Definition REVSUBTRACT : N := SUBTRACT + 1.
Definition MIN : N := REVSUBTRACT + 1.
Definition MAX : N := MIN + 1.
Definition KEEP : N := 1.
Definition REPLACE : N := 3.
Definition INVERT : N := REPLACE + 1.
Definition INCRSAT : N := INVERT + 1.
Definition DECRSAT : N := INCRSAT + 1.
Definition INCR : N := DECRSAT + 1.
Definition DECR : N := INCR + 1.
Definition NEVER : N := 1.
Definition LESS : N := NEVER + 1.
Definition EQUAL : N := LESS + 1.
Definition LESSEQUAL : N := EQUAL + 1.
Definition GREATER : N := LESSEQUAL + 1.
Definition NOTEQUAL : N := GREATER + 1.
Definition GREATEREQUAL : N := NOTEQUAL + 1.
Definition ALWAYS : N := GREATEREQUAL + 1.

Record t := mk {
  RenderTargets : list pointer;
  VertexShader : pointer; PixelShader : pointer;
  SRGBWriteEnable : bool; BlendEnable : bool;
  DepthEnable : bool; StencilEnable : bool;
  RenderTargetWriteMask : N; DepthWriteMask : N;
  StencilReadMask : N; StencilWriteMask : N;
  BlendOp : N; BlendOpAlpha : N; SrcBlend : N; DestBlend : N;
  DepthFunc : N; StencilFunc : N; StencilRef : N;
  StencilOpPass : N; StencilOpFail : N; StencilOpDepthFail : N
}.

(** [States()]; [RenderTargets()] value-initialises the eight pointers. *)
Definition ctor : t := {|
  RenderTargets := replicate 8 nullptr;
  VertexShader := nullptr; PixelShader := nullptr;
  SRGBWriteEnable := false; BlendEnable := false;
  DepthEnable := false; StencilEnable := false;
  RenderTargetWriteMask := 0xF; DepthWriteMask := 1;
  StencilReadMask := 0xFF; StencilWriteMask := 0xFF;
  BlendOp := ADD; BlendOpAlpha := ADD; SrcBlend := ONE; DestBlend := ZERO;
  DepthFunc := LESS; StencilFunc := ALWAYS; StencilRef := 0;
  StencilOpPass := KEEP; StencilOpFail := KEEP; StencilOpDepthFail := KEEP
|}.
End States.

(** *** The structs and their default constructors *)

Section Nodes.
Context `{!Lexer.t}.

(** [class node]: the tag and the source location. *)
Record node := mk_node {
  id : nodeid.t;
  location : Lexer.location
}.

(** [node(nodeid id) : id(id), location()]. *)
Definition node_ctor (i : nodeid.t) : node :=
  {| id := i; location := Lexer.location_default |}.

(** [struct Expression : node], with its member [Type Type]; the
    constructor does not initialise it. *)
Record Expression := mk_Expression {
  Expression_node : node;
  Expression_Type : member Type_
}.

Definition Expression_ctor (i : nodeid.t) : Expression :=
  {| Expression_node := node_ctor i; Expression_Type := Indeterminate |}.

(** [struct Statement : node], with [std::vector<std::string> Attributes]. *)
Record Statement := mk_Statement {
  Statement_node : node;
  Attributes : list string
}.

Definition Statement_ctor (i : nodeid.t) : Statement :=
  {| Statement_node := node_ctor i; Attributes := [] |}.

(** [struct Declaration : node], with [std::string Name, Namespace]. *)
Record Declaration := mk_Declaration {
  Declaration_node : node;
  Name : string;
  Namespace : string
}.

Definition Declaration_ctor (i : nodeid.t) : Declaration :=
  {| Declaration_node := node_ctor i; Name := ""; Namespace := "" |}.

(** [struct Annotation : node]. *)
Record Annotation := mk_Annotation {
  Annotation_node : node;
  Annotation_Name : string;
  Annotation_Value : member pointer
}.

Definition Annotation_ctor : Annotation :=
  {| Annotation_node := node_ctor nodeid.Annotation;
     Annotation_Name := "";
     Annotation_Value := Indeterminate |}.

(** The members each struct derived from [Expression] adds.  [Value] of a
    [Literal] is the storage of its union: sixteen 32-bit words, read as
    [Int], [Uint] or [Float]. *)
Inductive expression_members :=
  | LValue (Reference : pointer)
  | Literal (Value : list N) (StringValue : string)
  | Unary (Operator : UnaryOp.t) (Operand : pointer)
  | Binary (Operator : BinaryOp.t) (Operands : list pointer)
  | Intrinsic (Operator : IntrinsicOp.t) (Arguments : list pointer)
  | Conditional (Condition ExpressionOnTrue ExpressionOnFalse : pointer)
  | Assignment (Operator : AssignmentOp.t) (Left Right : member pointer)
  | Sequence (Expressions : list pointer)
  | Call (CalleeName : string) (Callee : pointer) (Arguments : list pointer)
  | Constructor (Arguments : list pointer)
  | Swizzle (Operand : pointer) (Mask : list Z)
  | FieldSelection (Operand : pointer) (Field : pointer)
  | InitializerList (Values : list pointer).

(** The members each struct derived from [Statement] adds. *)
Inductive statement_members :=
  | Compound (Statements : list pointer)
  | DeclaratorList (Declarators : list pointer)
  | ExpressionStatement (Expression_ : member pointer)
  | If (Condition StatementOnTrue StatementOnFalse : member pointer)
  | Case (Labels : list pointer) (Statements : member pointer)
  | Switch (Test : member pointer) (Cases : list pointer)
  | For (Initialization Condition Increment Statements : member pointer)
  | While (DoWhile : bool) (Condition Statements : member pointer)
  | Return (Discard : bool) (Value : pointer)
  | Jump (Mode : JumpMode.t).

(** The members each struct derived from [Declaration] adds. *)
Inductive declaration_members :=
  | Variable_ (Type__ : member Type_) (Annotations : list Annotation)
      (Semantic : string) (Properties_ : Properties.t) (Initializer : pointer)
  | Struct (Fields : list pointer)
  | Function (ReturnType : member Type_) (Parameters : list pointer)
      (ReturnSemantic : string) (Definition__ : pointer)
  | Pass (Annotations : list Annotation) (States_ : States.t)
  | Technique (Annotations : list Annotation) (Passes : list pointer).

(** A complete object of one of the concrete structs: the sub-object of
    its base class and the members the struct adds. *)
Inductive object :=
  | ExpressionObject (base : Expression) (members : expression_members)
  | StatementObject (base : Statement) (members : statement_members)
  | DeclarationObject (base : Declaration) (members : declaration_members)
  | AnnotationObject (a : Annotation).

(** The [node] sub-object. *)
Definition header (o : object) : node :=
  match o with
  | ExpressionObject b _ => Expression_node b
  | StatementObject b _ => Statement_node b
  | DeclarationObject b _ => Declaration_node b
  | AnnotationObject a => Annotation_node a
  end.

(** [o.location = l]. *)
Definition assign_location (l : Lexer.location) (o : object) : object :=
  let stamp (n : node) := {| id := id n; location := l |} in
  match o with
  | ExpressionObject b m =>
      ExpressionObject {| Expression_node := stamp (Expression_node b);
                          Expression_Type := Expression_Type b |} m
  | StatementObject b m =>
      StatementObject {| Statement_node := stamp (Statement_node b);
                         Attributes := Attributes b |} m
  | DeclarationObject b m =>
      DeclarationObject {| Declaration_node := stamp (Declaration_node b);
                           Name := Name b; Namespace := Namespace b |} m
  | AnnotationObject a =>
      AnnotationObject {| Annotation_node := stamp (Annotation_node a);
                          Annotation_Name := Annotation_Name a;
                          Annotation_Value := Annotation_Value a |}
  end.

(** The family whose members an object carries. *)
Definition carries (o : object) : option family :=
  match o with
  | ExpressionObject _ _ => Some ExpressionFamily
  | StatementObject _ _ => Some StatementFamily
  | DeclarationObject _ _ => Some DeclarationFamily
  | AnnotationObject _ => None
  end.

(** [T()] for each concrete struct [T]: the default constructor with its
    member initialisers and body. *)
Definition construct (T : shape.t) : object :=
  match T with
  | shape.LValue =>
      ExpressionObject (Expression_ctor nodeid.LValue) (LValue nullptr)
  | shape.Literal =>
      (* memset(&Value, 0, sizeof(Value)) *)
      ExpressionObject (Expression_ctor nodeid.Literal)
        (Literal (replicate 16 0) "")
  | shape.Unary =>
      ExpressionObject (Expression_ctor nodeid.Unary)
        (Unary UnaryOp.None nullptr)
  | shape.Binary =>
      ExpressionObject (Expression_ctor nodeid.Binary)
        (Binary BinaryOp.None (replicate 2 nullptr))
  | shape.Intrinsic =>
      ExpressionObject (Expression_ctor nodeid.Intrinsic)
        (Intrinsic IntrinsicOp.None (replicate 4 nullptr))
  | shape.Conditional =>
      ExpressionObject (Expression_ctor nodeid.Conditional)
        (Conditional nullptr nullptr nullptr)
  | shape.Assignment =>
      ExpressionObject (Expression_ctor nodeid.Assignment)
        (Assignment AssignmentOp.None Indeterminate Indeterminate)
  | shape.Sequence =>
      ExpressionObject (Expression_ctor nodeid.Sequence) (Sequence [])
  | shape.Call =>
      ExpressionObject (Expression_ctor nodeid.Call) (Call "" nullptr [])
  | shape.Constructor =>
      ExpressionObject (Expression_ctor nodeid.Constructor) (Constructor [])
  | shape.Swizzle =>
      (* Mask[0] = Mask[1] = Mask[2] = Mask[3] = -1 *)
      ExpressionObject (Expression_ctor nodeid.Swizzle)
        (Swizzle nullptr (replicate 4 (-1)%Z))
  | shape.FieldSelection =>
      ExpressionObject (Expression_ctor nodeid.FieldSelection)
        (FieldSelection nullptr nullptr)
  | shape.InitializerList =>
      ExpressionObject (Expression_ctor nodeid.InitializerList)
        (InitializerList [])
  | shape.Compound =>
      StatementObject (Statement_ctor nodeid.Compound) (Compound [])
  | shape.DeclaratorList =>
      StatementObject (Statement_ctor nodeid.DeclaratorList)
        (DeclaratorList [])
  | shape.ExpressionStatement =>
      StatementObject (Statement_ctor nodeid.ExpressionStatement)
        (ExpressionStatement Indeterminate)
  | shape.If =>
      StatementObject (Statement_ctor nodeid.If)
        (If Indeterminate Indeterminate Indeterminate)
  | shape.Case =>
      StatementObject (Statement_ctor nodeid.Case) (Case [] Indeterminate)
  | shape.Switch =>
      StatementObject (Statement_ctor nodeid.Switch) (Switch Indeterminate [])
  | shape.For =>
      StatementObject (Statement_ctor nodeid.For)
        (For Indeterminate Indeterminate Indeterminate Indeterminate)
  | shape.While =>
      StatementObject (Statement_ctor nodeid.While)
        (While false Indeterminate Indeterminate)
  | shape.Return =>
      StatementObject (Statement_ctor nodeid.Return) (Return false nullptr)
  | shape.Jump =>
      StatementObject (Statement_ctor nodeid.Jump) (Jump JumpMode.Break)
  | shape.Annotation => AnnotationObject Annotation_ctor
  | shape.Variable_ =>
      DeclarationObject (Declaration_ctor nodeid.Variable_)
        (Variable_ Indeterminate [] "" Properties.ctor nullptr)
  | shape.Struct =>
      DeclarationObject (Declaration_ctor nodeid.Struct) (Struct [])
  | shape.Function =>
      DeclarationObject (Declaration_ctor nodeid.Function)
        (Function Indeterminate [] "" nullptr)
  | shape.Pass =>
      DeclarationObject (Declaration_ctor nodeid.Pass) (Pass [] States.ctor)
  | shape.Technique =>
      DeclarationObject (Declaration_ctor nodeid.Technique) (Technique [] [])
  end.

(** An object as the tree hands it out: constructed, and stamped with a
    location when it comes from [make_node]. *)
Definition fresh (T : shape.t) (stamp : option Lexer.location) : object :=
  match stamp with
  | None => construct T
  | Some l => assign_location l (construct T)
  end.





End Nodes.

(** ** class nodetree::memory_pool *)

(** [size_t] arithmetic. *)
Definition wrap (x : N) : N := x mod 2 ^ 64.
Definition size_add (a b : N) : N := wrap (a + b).
Definition size_sub (a b : N) : N := wrap (a + 2 ^ 64 - wrap b).

(** How a member function of the pool ends. *)
Inductive result (A : Type) :=
  | Ok (a : A)
  | OutOfRange          (* [std::out_of_range] thrown by [vector::at] *)
  | Undefined.          (* an access outside the buffer of a page, or to
                           bytes that do not hold a value of the type read *)
Arguments Ok {A} a.
Arguments OutOfRange {A}.
Arguments Undefined {A}.

Global Instance result_ret : MRet result := λ A a, Ok a.
Global Instance result_bind : MBind result := λ A B f m,
  match m with
  | Ok a => f a
  | OutOfRange => OutOfRange
  | Undefined => Undefined
  end.

(** An access through a raw pointer that misses is undefined. *)
Definition defined {A} (o : option A) : result A :=
  match o with
  | Some a => Ok a
  | None => Undefined
  end.

Module memory_pool.

(** What [add<T>] needs of the types it is instantiated at. *)
Class Env := {
  T : Type;                  (* the names of the types *)
  object : Type;             (* complete objects of these types *)
  sizeof : T → positive;     (* [sizeof(T)] *)
  ctor : T → object;         (* [T()] *)
  dtor : T → N;              (* the address of the function that the
                                lambda calling [~T()] converts to *)
  sizeof_node : positive     (* [sizeof(node)] *)
}.

Section Pool.
Context `{!Env}.

(** One [unsigned char] of a page buffer: a plain byte, or a byte of the
    storage of a live object, whose first byte stands for the object. *)
Inductive cell :=
  | Byte (b : N)
  | ObjectStart (o : object)
  | ObjectRest.

(** [struct page]. *)
Record page := mk_page {
  cursor : N;
  memory : list cell
}.

(** [explicit page(size_t size) : cursor(0), memory(size, 0)]. *)
Definition page_ctor (size : N) : page :=
  {| cursor := 0; memory := replicate (N.to_nat size) (Byte 0) |}.

(** The pool: [std::list<page> _pages]. *)
Record t := mk { _pages : list page }.

Definition empty : t := {| _pages := [] |}.

(** *** Raw access to a page buffer *)

(** [len] cells from offset [off]; nothing when the range leaves the
    buffer. *)
Definition load (mem : list cell) (off len : N) : option (list cell) :=
  if decide (off + len ≤ N.of_nat (length mem))
  then Some (take (N.to_nat len) (drop (N.to_nat off) mem))
  else None.

(** Overwrite the cells from offset [off] by [cs]. *)
Definition store (mem : list cell) (off : N) (cs : list cell) : option (list cell) :=
  if decide (off + N.of_nat (length cs) ≤ N.of_nat (length mem))
  then Some (take (N.to_nat off) mem ++ cs
             ++ drop (N.to_nat off + length cs) mem)
  else None.

(** The little-endian representation of an integer in [n] bytes. *)
Fixpoint encode (n : nat) (v : N) : list cell :=
  match n with
  | O => []
  | S n => Byte (v mod 256) :: encode n (v / 256)
  end.

Fixpoint decode (cs : list cell) : option N :=
  match cs with
  | [] => Some 0
  | Byte b :: cs => v ← decode cs; Some (b + 256 * v)
  | _ => None
  end.

(** A [size_t] or a function pointer at offset [off]. *)
Definition load_word (mem : list cell) (off : N) : option N :=
  load mem off 8 ≫= decode.

Definition store_word (mem : list cell) (off : N) (v : N) : option (list cell) :=
  store mem off (encode 8 v).

(** The cells of an object of type [T]. *)
Definition object_cells (size : positive) (o : object) : list cell :=
  ObjectStart o :: replicate (Nat.pred (Pos.to_nat size)) ObjectRest.

Definition load_object (mem : list cell) (off : N) : option object :=
  match mem !! N.to_nat off with
  | Some (ObjectStart o) => Some o
  | _ => None
  end.

(** *** struct nodeinfo *)

Definition align_up (a x : N) : N := (x + a - 1) / a * a.

Definition offsetof_size : N := 0.
Definition offsetof_dtor : N := 8.
Definition offsetof_data : N := 16.

(** The members [size_t size], the function pointer [dtor] and
    [unsigned char data[sizeof(node)]], padded to the alignment of the
    first two. *)
Definition sizeof_nodeinfo : N :=
  align_up 8 (offsetof_data + Npos sizeof_node).

(** [sizeof(nodeinfo) - sizeof(node) + sizeof(T)], the size of a slot:
    as a number, and as the [size_t] that [add] computes. *)
Definition footprint_exact (ty : T) : N :=
  sizeof_nodeinfo - Npos sizeof_node + Npos (sizeof ty).

Definition footprint (ty : T) : N :=
  size_add (size_sub sizeof_nodeinfo (Npos sizeof_node)) (Npos (sizeof ty)).

(** *** add *)

(** The predicate of [std::find_if]:
    [page.cursor + size < page.memory.size()]. *)
Definition has_room (size : N) (p : page) : Prop :=
  size_add (cursor p) size < N.of_nat (length (memory p)).

Global Instance has_room_dec size p : Decision (has_room size p).
Proof. unfold has_room. apply _. Defined.

(** The part of [add] after the page is chosen: the slot is built at the
    cursor of the page at position [i] of [pages].  The result is the
    address of the new object and the pool after the call. *)
Definition place (ty : T) (size : N) (i : nat) (pages : list page)
    : result (pointer * t) :=
  p ← defined (pages !! i);
  (* &page->memory.at(page->cursor) *)
  if decide (cursor p < N.of_nat (length (memory p))) then
    let node := cursor p in
    (* new (&node->data) T() *)
    m1 ← defined (store (memory p) (node + offsetof_data)
                    (object_cells (sizeof ty) (ctor ty)));
    (* node->size = size *)
    m2 ← defined (store_word m1 (node + offsetof_size) size);
    (* node->dtor = ... *)
    m3 ← defined (store_word m2 (node + offsetof_dtor) (dtor ty));
    (* page->cursor += node->size *)
    sz ← defined (load_word m3 (node + offsetof_size));
    let p' := {| cursor := size_add (cursor p) sz; memory := m3 |} in
    Ok (Ptr i (node + offsetof_data), {| _pages := <[i := p']> pages |})
  else OutOfRange.

(** [template <typename T> T *add()]: the first page the predicate
    holds of, or else a new page at the end of the list. *)
Definition add (ty : T) (pool : t) : result (pointer * t) :=
  let size := footprint ty in
  match list_find (has_room size) (_pages pool) with
  | Some (i, _) => place ty size i (_pages pool)
  | None =>
      (* _pages.emplace_back(std::max(size_t(4096), size)) *)
      place ty size (length (_pages pool))
        (_pages pool ++ [page_ctor (N.max 4096 size)])
  end.

(** [add<T>] for each type of a list in turn; the addresses come back in
    the order of the calls. *)
Fixpoint add_all (tys : list T) (pool : t) : result (list pointer * t) :=
  match tys with
  | [] => Ok ([], pool)
  | ty :: tys =>
      '(ptr, pool) ← add ty pool;
      '(ptrs, pool) ← add_all tys pool;
      Ok (ptr :: ptrs, pool)
  end.

(** *** clear *)

(** One call [fn(obj)] made through the [dtor] member of a slot. *)
Inductive call := Call (fn : N) (obj : pointer).

(** How the walk over a page ends: the loop is left with the page's
    cursor at [cursor], or the walk reads a word outside the buffer or
    from the bytes of an object, or the fuel of the embedding runs out
    (the loop of the source has no bound). *)
Inductive walk :=
  | Leaves (cursor : N) (calls : list call)
  | Stray (calls : list call)
  | Unfinished.

(** The [do ... while] of [clear] on the page at position [pg], with
    [node] the offset of the current [nodeinfo].  A destructor changes
    no byte outside the object it destroys, and the walk reads none
    inside: the buffer is passed on as it is.  What the destructor
    leaves of its object is not modelled; the embedding is meant for
    one walk over the pages, and says nothing about the objects of a
    pool after [clear]. *)
Fixpoint clear_loop (fuel pg : nat) (mem : list cell) (node cursor : N)
    (calls : list call) : walk :=
  match fuel with
  | O => Unfinished
  | S fuel =>
      (* node->dtor(node->data) *)
      match load_word mem (node + offsetof_dtor) with
      | None => Stray calls
      | Some fn =>
          let calls := calls ++ [Call fn (Ptr pg (node + offsetof_data))] in
          (* node = the address node->size bytes behind node *)
          match load_word mem (node + offsetof_size) with
          | None => Stray calls
          | Some size =>
              let node := node + size in
              (* while (node->size > 0 && (page.cursor -= node->size) > 0) *)
              match load_word mem (node + offsetof_size) with
              | None => Stray calls
              | Some next =>
                  if decide (0 < next) then
                    let cursor := size_sub cursor next in
                    if decide (0 < cursor)
                    then clear_loop fuel pg mem node cursor calls
                    else Leaves cursor calls
                  else Leaves cursor calls
              end
          end
      end
  end.

(** The body of [for (auto &page : _pages)]: the walk starts at
    [&page.memory.front()]. *)
Definition clear_page (pg : nat) (p : page) (calls : list call) : walk :=
  clear_loop (S (S (length (memory p)))) pg (memory p) 0 (cursor p) calls.

(** How [clear] ends: it returns, leaving the pool [pool] behind after
    the calls [calls], or its behaviour is undefined after [calls]. *)
Inductive cleared :=
  | Returned (pool : t) (calls : list call)
  | Astray (calls : list call)
  | NoFuel.

Fixpoint clear_pages (pg : nat) (pages done : list page) (calls : list call)
    : cleared :=
  match pages with
  | [] => Returned {| _pages := done |} calls
  | p :: pages =>
      match clear_page pg p calls with
      | Leaves c calls =>
          clear_pages (S pg) pages
            (done ++ [{| cursor := c; memory := memory p |}]) calls
      | Stray calls => Astray calls
      | Unfinished => NoFuel
      end
  end.

(** [void clear()]. *)
Definition clear (pool : t) : cleared :=
  clear_pages 0 (_pages pool) [] [].

(** *** The layout that [add] maintains *)

(** What [add] relies on in a pool it is called on. *)
Definition page_ok (p : page) : Prop :=
  cursor p ≤ N.of_nat (length (memory p))
  ∧ N.of_nat (length (memory p)) < 2 ^ 63.

Definition ok (pool : t) : Prop := Forall page_ok (_pages pool).

Global Instance page_ok_dec p : Decision (page_ok p).
Proof. unfold page_ok. apply _. Defined.

Global Instance ok_dec pool : Decision (ok pool).
Proof. unfold ok. apply _. Defined.

(** The room of a page behind its cursor. *)
Definition room (p : page) : N := N.of_nat (length (memory p)) - cursor p.

(** A slot: the type it was made for and the object in it. *)
Definition slot : Type := T * object.

(** The cells of a slot: the two words of the header, the object, and
    the bytes up to the size of the slot, which [add] leaves as they
    were in the fresh page. *)
Definition slot_cells (s : slot) : list cell :=
  encode 8 (footprint s.1) ++ encode 8 (dtor s.1)
  ++ object_cells (sizeof s.1) s.2
  ++ replicate (N.to_nat (footprint s.1) - 16 - Pos.to_nat (sizeof s.1))
       (Byte 0).

Definition cells (slots : list slot) : list cell :=
  slots ≫= slot_cells.

Definition extent (slots : list slot) : N :=
  N.of_nat (length (cells slots)).

(** A type whose slots the walk of [clear] gets across: its slot is a
    whole number of words and smaller than a fresh page, and the address
    of its destructor function fits a word. *)
Definition regular (ty : T) : Prop :=
  footprint_exact ty `mod` 8 = 0
  ∧ footprint_exact ty < 4096
  ∧ dtor ty < 2 ^ 64.

Global Instance regular_dec ty : Decision (regular ty).
Proof. unfold regular. apply _. Defined.

(** A page of 4096 bytes that holds the slots [slots], one after the
    other from offset 0, followed by zero bytes from the cursor on. *)
Definition holds (slots : list slot) (p : page) : Prop :=
  slots ≠ []
  ∧ Forall (λ s, regular s.1) slots
  ∧ cursor p = extent slots
  ∧ cursor p < 4096
  ∧ memory p = cells slots ++ replicate (4096 - length (cells slots)) (Byte 0).

(** The objects of a page with their types and addresses, and the calls
    that destroy them, in the order of the slots. *)
Fixpoint page_objects (pg : nat) (off : N) (slots : list slot)
    : list (T * pointer) :=
  match slots with
  | [] => []
  | s :: slots =>
      (s.1, Ptr pg (off + offsetof_data))
      :: page_objects pg (off + footprint s.1) slots
  end.

Fixpoint objects_from (pg : nat) (layout : list (list slot))
    : list (T * pointer) :=
  match layout with
  | [] => []
  | slots :: layout => page_objects pg 0 slots ++ objects_from (S pg) layout
  end.

Definition destroys (a : T * pointer) : call := Call (dtor a.1) a.2.

(** *** The destructor and views of the pool *)

(** [~memory_pool()], whose body is the call [clear()]. *)
Definition destructor (pool : t) : cleared := clear pool.

(** The object at an address of the pool. *)
Definition object_at (pool : t) (ptr : pointer) : option object :=
  match ptr with
  | nullptr => None
  | Ptr pg off =>
      match _pages pool !! pg with
      | Some p => load_object (memory p) off
      | None => None
      end
  end.

(** An address in use: it lies on a page of the pool, below the cursor
    of that page. *)
Definition live (pool : t) (ptr : pointer) : Prop :=
  match ptr with
  | nullptr => False
  | Ptr pg off => ∃ p, _pages pool !! pg = Some p ∧ off < cursor p
  end.

(** What a call keeps of the pages when it moves cursors forward only
    and leaves the bytes below them: every page stays at its position,
    with a buffer of the same length. *)
Definition kept (pages pages' : list page) : Prop :=
  ∀ pg p, pages !! pg = Some p →
    ∃ p', pages' !! pg = Some p'
          ∧ length (memory p') = length (memory p)
          ∧ cursor p ≤ cursor p'
          ∧ take (N.to_nat (cursor p)) (memory p')
            = take (N.to_nat (cursor p)) (memory p).

End Pool.
End memory_pool.

(** ** Plain types for experiments *)

(** A family of types, one for each size: [struct S : node { ... }] with
    [sizeof(S) = s], the node header taking 48 bytes.  The object of a
    type is identified with the type, and its destructor function is
    taken to lie at [0x1000 + s]. *)
Definition sized : memory_pool.Env := {|
  memory_pool.T := positive;
  memory_pool.object := positive;
  memory_pool.sizeof := λ s, s;
  memory_pool.ctor := λ s, s;
  memory_pool.dtor := λ s, 0x1000 + Npos s;
  memory_pool.sizeof_node := 48
|}.

(** The pool after [add<S>] for each of the sizes, or the empty pool
    should one of the calls not return. *)
Definition sized_pool (sizes : list positive) : @memory_pool.t sized :=
  match @memory_pool.add_all sized sizes memory_pool.empty with
  | Ok (_, pool) => pool
  | _ => memory_pool.empty
  end.

(** The cursor and the buffer length of each page of a pool. *)
Definition page_sizes `{!memory_pool.Env} (pool : memory_pool.t)
    : list (N * N) :=
  (λ p, (memory_pool.cursor p, N.of_nat (length (memory_pool.memory p))))
    <$> memory_pool._pages pool.

(** ** class nodetree *)

Module nodetree.

(** What the compiler fixes for the node structs: their sizes and the
    addresses of the destructor functions that [add<T>] stores. *)
Class ABI := {
  sizeof : shape.t → positive;
  sizeof_node : positive;
  dtor : shape.t → N
}.

Section Tree.
Context `{!Lexer.t, !ABI}.

(** [add<T>] at the node structs. *)
Global Instance env : memory_pool.Env := {|
  memory_pool.T := shape.t;
  memory_pool.object := object;
  memory_pool.sizeof := sizeof;
  memory_pool.ctor := construct;
  memory_pool.dtor := dtor;
  memory_pool.sizeof_node := sizeof_node
|}.

(** The four collections and the pool. *)
Record t := mk {
  structs : list pointer;
  uniforms : list pointer;
  functions : list pointer;
  techniques : list pointer;
  _pool : memory_pool.t
}.

(** The object a pointer into the pool points to. *)
Definition deref (pool : memory_pool.t) (ptr : pointer) : option object :=
  match ptr with
  | nullptr => None
  | Ptr pg off =>
      match memory_pool._pages pool !! pg with
      | Some p => memory_pool.load_object (memory_pool.memory p) off
      | None => None
      end
  end.

(** [ptr->location = l]. *)
Definition set_location (pool : memory_pool.t) (ptr : pointer)
    (l : Lexer.location) : result memory_pool.t :=
  match ptr with
  | nullptr => Undefined
  | Ptr pg off =>
      p ← defined (memory_pool._pages pool !! pg);
      o ← defined (memory_pool.load_object (memory_pool.memory p) off);
      m ← defined (memory_pool.store (memory_pool.memory p) off
                     [memory_pool.ObjectStart (assign_location l o)]);
      Ok {| memory_pool._pages :=
              <[pg := {| memory_pool.cursor := memory_pool.cursor p;
                         memory_pool.memory := m |}]>
                (memory_pool._pages pool) |}
  end.

(** [template <typename T> T *make_node(const location &location)]. *)
Definition make_node (T : shape.t) (l : Lexer.location) (tree : t)
    : result (pointer * t) :=
  '(node, pool) ← memory_pool.add T (_pool tree);
  pool ← set_location pool node l;
  Ok (node, {| structs := structs tree; uniforms := uniforms tree;
               functions := functions tree; techniques := techniques tree;
               _pool := pool |}).

(** [nodetree()]: empty collections and an empty pool. *)
Definition empty : t := {|
  structs := []; uniforms := []; functions := []; techniques := [];
  _pool := memory_pool.empty
|}.

(** Calls of [make_node] one after the other, a struct and a location
    for each, with the nodes they return. *)
Fixpoint make_nodes (requests : list (shape.t * Lexer.location)) (tree : t)
    : result (list pointer * t) :=
  match requests with
  | [] => Ok ([], tree)
  | (T, l) :: requests =>
      '(node, tree) ← make_node T l tree;
      '(nodes, tree) ← make_nodes requests tree;
      Ok (node :: nodes, tree)
  end.

(** The implicit [~nodetree()]: of the members, the four vectors hold
    plain pointers, so only the destructor of [_pool] makes calls. *)
Definition destructor (tree : t) : memory_pool.cleared :=
  memory_pool.destructor (_pool tree).

End Tree.
End nodetree.

(** ** A lexer and an ABI for experiments *)

(** A location as file, line and column, [location()] being line 1 and
    column 1 of no file. *)
Definition plain_lexer : Lexer.t := {|
  Lexer.location := string * N * N;
  Lexer.location_default := (""%string, 1, 1)
|}.

(** Every struct takes 256 bytes, of which the node header takes 48;
    the destructor functions lie 16 bytes apart from [0x401000] on, in
    the order of [shape.all]. *)
Definition plain_abi : nodetree.ABI := {|
  nodetree.sizeof := λ _, 256%positive;
  nodetree.sizeof_node := 48%positive;
  nodetree.dtor := λ s,
    0x401000 + 16 * N.of_nat (default 0%nat (fst <$> list_find (λ s', s' = s) shape.all))
|}.

(** The tree after [make_node] for each of the requests, or the empty
    tree should one of the calls not return. *)
Definition grown_tree `{!Lexer.t, !nodetree.ABI}
    (requests : list (shape.t * Lexer.location)) : nodetree.t :=
  match nodetree.make_nodes requests nodetree.empty with
  | Ok (_, tree) => tree
  | _ => nodetree.empty
  end.

(** Decides a closed proposition by evaluation. *)
Ltac evaluate :=
  lazymatch goal with
  | |- ?P => apply (bool_decide_unpack P); vm_compute; exact I
  end.

(** * Properties *)

(** ** The type descriptor *)

Section TypeDescriptor.
Implicit Types (ty : Type_) (q : Qualifier.t).

Lemma holding_cons b bs :
  holding (b :: bs) = ((if b then 1 else 0) + holding bs)%nat.
Proof. by destruct b. Qed.

Lemma holding_nil : holding [] = 0%nat.
Proof. reflexivity. Qed.

Lemma IsNumeric_classes ty :
  IsNumeric ty = true ↔
    BaseClass ty = Class.Bool ∨ BaseClass ty = Class.Int
    ∨ BaseClass ty = Class.Uint ∨ BaseClass ty = Class.Float.
Proof.
  unfold IsNumeric, IsBoolean, IsIntegral, IsFloatingPoint.
  rewrite !orb_true_iff, !bool_decide_eq_true. tauto.
Qed.

Lemma IsArray_spec ty : IsArray ty = true ↔ ArrayLength ty ≠ 0%Z.
Proof. unfold IsArray. by rewrite negb_true_iff, Z.eqb_neq. Qed.

Lemma IsMatrix_spec ty : IsMatrix ty = true ↔ 1 ≤ Rows ty ∧ 1 < Cols ty.
Proof. unfold IsMatrix. by rewrite andb_true_iff, N.leb_le, N.ltb_lt. Qed.

Lemma IsVector_spec ty :
  IsVector ty = true ↔ 1 < Rows ty ∧ IsMatrix ty = false.
Proof. unfold IsVector. by rewrite andb_true_iff, N.ltb_lt, negb_true_iff. Qed.

Lemma IsScalar_spec ty :
  IsScalar ty = true ↔
    IsArray ty = false ∧ IsMatrix ty = false ∧ IsVector ty = false
    ∧ IsNumeric ty = true.
Proof.
  unfold IsScalar. rewrite !andb_true_iff, !negb_true_iff. tauto.
Qed.

(** C7.  The classification rules: an array is a non-zero [ArrayLength];
    a matrix has at least one row and more than one column; a vector has
    more than one row and is no matrix; a scalar is numeric and neither
    array, matrix nor vector; numeric is boolean, integral or floating
    point, that is, of base class [Bool], [Int], [Uint] or [Float].  In
    terms of the members alone, a scalar has no array length, no row or
    one row and at most one column, and one of these four base classes.
    A [float] with one row, one column and no array length is a scalar
    and no array, and so is a value of each other numeric class. *)
Theorem classification_rules ty :
  (IsArray ty = true ↔ ArrayLength ty ≠ 0%Z)
  ∧ (IsMatrix ty = true ↔ 1 ≤ Rows ty ∧ 1 < Cols ty)
  ∧ (IsVector ty = true ↔ 1 < Rows ty ∧ IsMatrix ty = false)
  ∧ (IsScalar ty = true ↔
       IsArray ty = false ∧ IsMatrix ty = false ∧ IsVector ty = false
       ∧ IsNumeric ty = true)
  ∧ (IsNumeric ty = true ↔
       IsBoolean ty = true ∨ IsIntegral ty = true ∨ IsFloatingPoint ty = true)
  ∧ (∀ qs def,
       let x := mkType Class.Float qs 1 1 0 def in
       IsScalar x = true ∧ IsArray x = false)
  ∧ (IsBoolean ty = true ↔ BaseClass ty = Class.Bool)
  ∧ (IsIntegral ty = true ↔
       BaseClass ty = Class.Int ∨ BaseClass ty = Class.Uint)
  ∧ (IsFloatingPoint ty = true ↔ BaseClass ty = Class.Float)
  ∧ (IsNumeric ty = true ↔
       BaseClass ty = Class.Bool ∨ BaseClass ty = Class.Int
       ∨ BaseClass ty = Class.Uint ∨ BaseClass ty = Class.Float)
  ∧ (IsScalar ty = true ↔
       ArrayLength ty = 0%Z
       ∧ (Rows ty = 0 ∨ Rows ty = 1 ∧ Cols ty ≤ 1)
       ∧ (BaseClass ty = Class.Bool ∨ BaseClass ty = Class.Int
          ∨ BaseClass ty = Class.Uint ∨ BaseClass ty = Class.Float))
  ∧ (∀ bc qs def,
       let x := mkType bc qs 1 1 0 def in
       (IsScalar x = true ↔
          bc = Class.Bool ∨ bc = Class.Int ∨ bc = Class.Uint
          ∨ bc = Class.Float)
       ∧ IsArray x = false).
Proof.
  split; [apply IsArray_spec|]. split; [apply IsMatrix_spec|].
  split; [apply IsVector_spec|]. split; [apply IsScalar_spec|].
  split; [unfold IsNumeric; rewrite !orb_true_iff; tauto|].
  split; [done|].
  split; [unfold IsBoolean; by rewrite bool_decide_eq_true|].
  split.
  { unfold IsIntegral. by rewrite orb_true_iff, !bool_decide_eq_true. }
  split; [unfold IsFloatingPoint; by rewrite bool_decide_eq_true|].
  split; [apply IsNumeric_classes|].
  split.
  - rewrite <- IsNumeric_classes. unfold IsScalar, IsVector, IsMatrix, IsArray.
    destruct (Z.eqb_spec (ArrayLength ty) 0), (N.leb_spec 1 (Rows ty)),
      (N.ltb_spec 1 (Cols ty)), (N.ltb_spec 1 (Rows ty)), (IsNumeric ty);
      cbn; intuition (try lia; try done).
  - intros bc qs def. cbn zeta. split; [|done].
    rewrite IsScalar_spec, IsNumeric_classes. cbn. intuition done.
Qed.

(** C3.  [IsTexture] holds exactly for the base classes [Texture1D] and
    [Texture2D], so not for [Texture3D]; [IsSampler] holds exactly for
    [Sampler1D], [Sampler2D] and [Sampler3D]. *)
Theorem texture_and_sampler_ranges ty :
  (IsTexture ty = true ↔
     BaseClass ty = Class.Texture1D ∨ BaseClass ty = Class.Texture2D)
  ∧ (BaseClass ty = Class.Texture3D → IsTexture ty = false)
  ∧ (IsSampler ty = true ↔
       BaseClass ty = Class.Sampler1D ∨ BaseClass ty = Class.Sampler2D
       ∨ BaseClass ty = Class.Sampler3D).
Proof.
  unfold IsTexture, IsSampler, Class.geb, Class.leb.
  destruct (BaseClass ty); cbn; intuition congruence.
Qed.

(** The bits of a mask after the cast to [unsigned int]. *)
Lemma to_unsigned_bits x i :
  N.testbit (to_unsigned x) i = (i <? 32) && N.testbit x i.
Proof.
  unfold to_unsigned. destruct (N.ltb_spec i 32).
  - by rewrite N.mod_pow2_bits_low.
  - by rewrite N.mod_pow2_bits_high.
Qed.

Lemma land_covers a b :
  N.land a b = b ↔ ∀ i, N.testbit b i = true → N.testbit a i = true.
Proof.
  split.
  - intros H i Hb. rewrite <- H, N.land_spec in Hb.
    by apply andb_true_iff in Hb as [? _].
  - intros H. apply N.bits_inj. intros i. rewrite N.land_spec.
    destruct (N.testbit b i) eqn:Hb; [by rewrite (H i Hb)|by rewrite andb_false_r].
Qed.

Lemma HasQualifier_bits ty q :
  HasQualifier ty q = true ↔
    ∀ i, i < 32 → N.testbit q i = true → N.testbit (Qualifiers ty) i = true.
Proof.
  unfold HasQualifier. rewrite N.eqb_eq, land_covers. split.
  - intros H i Hi Hq. apply H. rewrite to_unsigned_bits, Hq.
    by apply N.ltb_lt in Hi as ->.
  - intros H i. rewrite to_unsigned_bits.
    intros [Hi%N.ltb_lt Hq]%andb_true_iff. by apply H.
Qed.

(** C8.  [HasQualifier(q)] holds exactly when every bit of [q] is set in
    [Qualifiers]; for [InOut] that is when [In] and [Out] both hold; with
    [In] alone as the qualifiers, [HasQualifier(InOut)] is false. *)
Theorem HasQualifier_all_bits ty q :
  (HasQualifier ty q = true ↔
     ∀ i, i < 32 → N.testbit q i = true → N.testbit (Qualifiers ty) i = true)
  ∧ (HasQualifier ty Qualifier.InOut = true ↔
       HasQualifier ty Qualifier.In = true ∧ HasQualifier ty Qualifier.Out = true)
  ∧ (∀ bc rows cols len def,
       HasQualifier (mkType bc Qualifier.In rows cols len def) Qualifier.InOut
       = false).
Proof.
  split; [apply HasQualifier_bits|]. split; [|done].
  rewrite !HasQualifier_bits. unfold Qualifier.InOut. split.
  - intros H. split; intros i Hi Hq; apply H; try done;
      rewrite N.lor_spec, Hq; by rewrite ?orb_true_r.
  - intros [H1 H2] i Hi Hq. rewrite N.lor_spec in Hq.
    apply orb_true_iff in Hq as [Hq|Hq]; auto.
Qed.

(** C2, as the code has it.  Scalar, vector and matrix exclude one
    another on every descriptor.  Exactly one of the nine outcomes holds
    of a descriptor in these cases and in no other: its class is
    numeric and it is not both an array and a vector or matrix; its
    class is [Texture3D] and it is either an array or a vector or
    matrix, not both; its class is any other and it is neither array,
    vector nor matrix.  So exactly one holds of every numeric descriptor
    that is no array; and with four rows, four columns and no array
    length a descriptor is a matrix and neither vector nor scalar. *)
Theorem classification_of_numeric_values ty :
  (holding [IsScalar ty; IsVector ty; IsMatrix ty] ≤ 1)%nat
  ∧ (IsNumeric ty = true → IsArray ty = false →
       holding (outcomes ty) = 1%nat
       ∧ holding [IsScalar ty; IsVector ty; IsMatrix ty] = 1%nat)
  ∧ (∀ bc qs def,
       let m := mkType bc qs 4 4 0 def in
       IsMatrix m = true ∧ IsVector m = false ∧ IsScalar m = false)
  ∧ (holding (outcomes ty) = 1%nat ↔
       match BaseClass ty with
       | Class.Bool | Class.Int | Class.Uint | Class.Float =>
           IsArray ty = false ∨ IsVector ty = false ∧ IsMatrix ty = false
       | Class.Texture3D =>
           IsArray ty = negb (IsVector ty || IsMatrix ty)
       | _ =>
           IsArray ty = false ∧ IsVector ty = false ∧ IsMatrix ty = false
       end).
Proof.
  split; [|split; [|split; [done|]]].
  - unfold IsScalar, IsVector. rewrite !holding_cons, holding_nil.
    destruct (IsMatrix ty), (IsArray ty), (1 <? Rows ty), (IsNumeric ty);
      simpl; lia.
  - intros Hnum Harr. unfold outcomes. rewrite !holding_cons, holding_nil.
    unfold IsScalar, IsVector. rewrite Hnum, Harr.
    apply IsNumeric_classes in Hnum.
    unfold IsVoid, IsStruct, IsString, IsTexture, IsSampler.
    destruct (IsMatrix ty), (1 <? Rows ty);
      destruct Hnum as [-> | [-> | [-> | ->]]]; done.
  - unfold outcomes. rewrite !holding_cons, holding_nil.
    unfold IsScalar, IsVector, IsNumeric, IsBoolean, IsIntegral,
      IsFloatingPoint, IsVoid, IsStruct, IsString, IsTexture, IsSampler,
      Class.geb, Class.leb.
    destruct (BaseClass ty), (IsMatrix ty), (1 <? Rows ty), (IsArray ty);
      vm_compute; intuition (try lia; try done).
Qed.

(** C2, as stated, fails: an array of matrices is both an array and a
    matrix, and a descriptor of class [Texture3D] without dimensions has
    none of the nine outcomes. *)
Lemma classification_is_no_partition :
  holding (outcomes float4x4_array) = 2%nat
  ∧ IsArray float4x4_array = true ∧ IsMatrix float4x4_array = true
  ∧ holding (outcomes texture3D) = 0%nat.
Proof. done. Qed.

(** A [float3]: numeric, no array, and a vector only. *)
Lemma classification_of_numeric_values_witness :
  let ty := mkType Class.Float 0 3 1 0 nullptr in
  IsNumeric ty = true ∧ IsArray ty = false ∧ holding (outcomes ty) = 1%nat.
Proof.
  pose proof (classification_of_numeric_values
                (mkType Class.Float 0 3 1 0 nullptr)) as (_ & H & _).
  split; [done|]. split; [done|]. by apply H.
Defined.

End TypeDescriptor.

(** ** The node shapes *)

(** C4, as stated, fails: [Annotation] has a tag of its own and is
    derived from [node] itself, so it lies in none of the three
    families. *)
Lemma Annotation_outside_the_families :
  shape.tag shape.Annotation = nodeid.Annotation
  ∧ shape.base_of shape.Annotation = shape.node
  ∧ families_of shape.Annotation = [].
Proof. done. Qed.

Section NodeShapes.
Context `{!Lexer.t}.

Lemma construct_id s : id (header (construct s)) = shape.tag s.
Proof. by destruct s. Qed.

Lemma assign_location_header l o :
  header (assign_location l o) = {| id := id (header o); location := l |}.
Proof. by destruct o. Qed.

Lemma assign_location_carries l o :
  carries (assign_location l o) = carries o.
Proof. by destruct o. Qed.

(** C4, as the code has it.  Every concrete struct other than
    [Annotation] belongs to exactly one family, and a constructed object
    of the struct carries the members of that family; [Annotation] is
    derived from [node] and carries the members of none. *)
Theorem families_partition_all_but_Annotation :
  (∀ s, s ≠ shape.Annotation →
     ∃ f, families_of s = [f] ∧ carries (construct s) = Some f)
  ∧ families_of shape.Annotation = []
  ∧ carries (construct shape.Annotation) = None.
Proof.
  split; [|done]. intros s Hs.
  destruct s; try done;
    first [ by exists ExpressionFamily
          | by exists StatementFamily
          | by exists DeclarationFamily ].
Qed.

(** C9.  The defaults of the render-state snapshots, which a [Pass] and
    a [Variable] hold after construction: [States()] has the depth
    function [LESS], blending off, all four channels in the write mask
    and the blend factors [ONE] and [ZERO]; [Properties()] has the three
    filters [LINEAR] and the three address modes [CLAMP].  The
    enumerators have the values 2, 1, 0, 2 and 3. *)
Theorem default_States_and_Properties stamp :
  (∃ b annotations,
     fresh shape.Pass stamp = DeclarationObject b (Pass annotations States.ctor))
  ∧ (∃ b ty annotations semantic initializer,
       fresh shape.Variable_ stamp
       = DeclarationObject b
           (Variable_ ty annotations semantic Properties.ctor initializer))
  ∧ States.DepthFunc States.ctor = States.LESS
  ∧ States.BlendEnable States.ctor = false
  ∧ States.RenderTargetWriteMask States.ctor = 0xF
  ∧ States.SrcBlend States.ctor = States.ONE
  ∧ States.DestBlend States.ctor = States.ZERO
  ∧ Properties.MinFilter Properties.ctor = Properties.LINEAR
  ∧ Properties.MagFilter Properties.ctor = Properties.LINEAR
  ∧ Properties.MipFilter Properties.ctor = Properties.LINEAR
  ∧ Properties.AddressU Properties.ctor = Properties.CLAMP
  ∧ Properties.AddressV Properties.ctor = Properties.CLAMP
  ∧ Properties.AddressW Properties.ctor = Properties.CLAMP
  ∧ States.LESS = 2 ∧ States.ONE = 1 ∧ States.ZERO = 0
  ∧ Properties.LINEAR = 2 ∧ Properties.CLAMP = 3.
Proof.
  split; [destruct stamp; by repeat eexists|].
  split; [destruct stamp; by repeat eexists|].
  repeat split.
Qed.


(** The reference members that no constructor initialises: those of
    [Assignment], [ExpressionStatement], [If], [Case], [Switch], [For],
    [While] and [Annotation]. *)
Lemma members_without_initialiser :
  (∃ b op, construct shape.Assignment
           = ExpressionObject b (Assignment op Indeterminate Indeterminate))
  ∧ (∃ b, construct shape.ExpressionStatement
          = StatementObject b (ExpressionStatement Indeterminate))
  ∧ (∃ b, construct shape.If
          = StatementObject b (If Indeterminate Indeterminate Indeterminate))
  ∧ (∃ b labels, construct shape.Case
                 = StatementObject b (Case labels Indeterminate))
  ∧ (∃ b cases, construct shape.Switch
                = StatementObject b (Switch Indeterminate cases))
  ∧ (∃ b, construct shape.For
          = StatementObject b
              (For Indeterminate Indeterminate Indeterminate Indeterminate))
  ∧ (∃ b flag, construct shape.While
               = StatementObject b (While flag Indeterminate Indeterminate))
  ∧ (∃ a, construct shape.Annotation = AnnotationObject a
          ∧ Annotation_Value a = Indeterminate).
Proof. do 7 (split; [by repeat eexists|]). by eexists. Qed.

End NodeShapes.


(** ** The memory pool *)

Section PoolFacts.
Import memory_pool.
Context `{!Env}.
Implicit Types (mem cs : list cell) (p : page) (ty : T).

(** *** Arithmetic of [size_t] and of sizes *)

Lemma pow63 : 2 ^ 63 = 9223372036854775808.
Proof. reflexivity. Qed.

Lemma pow64 : 2 ^ 64 = 18446744073709551616.
Proof. reflexivity. Qed.

Lemma wrap_small x : x < 2 ^ 64 → wrap x = x.
Proof. apply N.mod_small. Qed.

Lemma size_add_small a b : a + b < 2 ^ 64 → size_add a b = a + b.
Proof. apply wrap_small. Qed.

Lemma size_sub_exact a b : b ≤ a → a - b < 2 ^ 64 → size_sub a b = a - b.
Proof.
  intros Hle Hlt. unfold size_sub, wrap.
  pose proof (N.div_mod' b (2 ^ 64)) as Hb.
  set (M := 2 ^ 64) in *. set (q := b `div` M) in *. set (r := b `mod` M) in *.
  clearbody q r M.
  replace (a + M - r) with (a - b + (q + 1) * M) by lia.
  rewrite N.Div0.mod_add. by apply N.mod_small.
Qed.

Lemma align_up_ge x :
  x ≤ align_up 8 x ∧ align_up 8 x < x + 8 ∧ align_up 8 x `mod` 8 = 0.
Proof.
  unfold align_up.
  pose proof (N.div_mod' (x + 8 - 1) 8) as Hd.
  pose proof (N.mod_upper_bound (x + 8 - 1) 8 ltac:(lia)).
  split; [|split; [|apply N.Div0.mod_mul]];
    set (q := (x + 8 - 1) `div` 8) in *; set (r := (x + 8 - 1) `mod` 8) in *;
    clearbody q r; lia.
Qed.

Lemma footprint_exact_ge ty :
  offsetof_data + Npos (sizeof ty) ≤ footprint_exact ty.
Proof.
  unfold footprint_exact, sizeof_nodeinfo.
  pose proof (align_up_ge (offsetof_data + Npos sizeof_node)). lia.
Qed.

Lemma footprint_small ty :
  footprint_exact ty < 2 ^ 64 → footprint ty = footprint_exact ty.
Proof.
  intros Hs. unfold footprint, footprint_exact in *.
  pose proof (align_up_ge (offsetof_data + Npos sizeof_node)) as (? & ? & _).
  fold sizeof_nodeinfo in *.
  rewrite size_sub_exact by lia. by apply size_add_small.
Qed.

(** *** Words and objects in a buffer *)

Lemma length_encode n v : length (encode n v) = n.
Proof. revert v. induction n; intros; simpl; auto. Qed.

Lemma decode_encode n v :
  decode (encode n v) = Some (v `mod` 256 ^ N.of_nat n).
Proof.
  revert v. induction n as [|n IH]; intros v.
  - simpl. by rewrite N.mod_1_r.
  - cbn [encode decode]. rewrite IH. cbn [mbind option_bind].
    f_equal. rewrite Nat2N.inj_succ, N.pow_succ_r'.
    by rewrite N.Div0.mod_mul_r.
Qed.

Lemma decode_encode_word v : v < 2 ^ 64 → decode (encode 8 v) = Some v.
Proof.
  intros Hv. rewrite decode_encode. f_equal. by apply N.mod_small.
Qed.

Lemma decode_zeros n : decode (replicate n (Byte 0)) = Some 0.
Proof. induction n as [|n IH]; [done|]. simpl. by rewrite IH. Qed.

Lemma load_app l1 l2 l3 off len :
  off = N.of_nat (length l1) → len = N.of_nat (length l2) →
  load (l1 ++ l2 ++ l3) off len = Some l2.
Proof.
  intros -> ->. unfold load. rewrite decide_True.
  - by rewrite !Nat2N.id, drop_app_length, take_app_length.
  - rewrite !length_app. lia.
Qed.

Lemma store_app l1 l2 l3 off cs :
  off = N.of_nat (length l1) → length cs = length l2 →
  store (l1 ++ l2 ++ l3) off cs = Some (l1 ++ cs ++ l3).
Proof.
  intros -> Hlen. unfold store. rewrite decide_True.
  - rewrite !Nat2N.id, take_app_length, Hlen.
    by rewrite <- drop_drop, !drop_app_length.
  - rewrite !length_app. lia.
Qed.


Lemma length_object_cells size o :
  length (object_cells size o) = Pos.to_nat size.
Proof.
  unfold object_cells. cbn [length]. rewrite length_replicate.
  pose proof (Pos2Nat.is_pos size). lia.
Qed.

Lemma load_object_app l1 l2 off size o :
  off = N.of_nat (length l1) →
  load_object (l1 ++ object_cells size o ++ l2) off = Some o.
Proof.
  intros ->. unfold load_object.
  by rewrite Nat2N.id, lookup_app_r, Nat.sub_diag by lia.
Qed.

(** *** add *)

(** [place] on a buffer given by its parts: the bytes before the cursor,
    those of the two header words and of the object, and the rest. *)
Lemma place_at ty size i pages c A B1 B2 B3 C :
  pages !! i = Some {| cursor := c; memory := A ++ B1 ++ B2 ++ B3 ++ C |} →
  c = N.of_nat (length A) →
  length B1 = 8%nat → length B2 = 8%nat →
  length B3 = Pos.to_nat (sizeof ty) →
  size < 2 ^ 64 → c + size < 2 ^ 64 →
  place ty size i pages
  = Ok (Ptr i (c + offsetof_data),
        {| _pages :=
             <[i := {| cursor := c + size;
                       memory := A ++ encode 8 size ++ encode 8 (dtor ty)
                                 ++ object_cells (sizeof ty) (ctor ty) ++ C |}]>
               pages |}).
Proof.
  intros Hp Hc HB1 HB2 HB3 Hsize Hsum. unfold place. rewrite Hp.
  cbn [defined mbind result_bind cursor memory].
  rewrite decide_True by (rewrite !length_app; lia).
  unfold offsetof_data, offsetof_size, offsetof_dtor, store_word.
  replace (A ++ B1 ++ B2 ++ B3 ++ C) with ((A ++ B1 ++ B2) ++ B3 ++ C)
    by (by rewrite <- !app_assoc).
  rewrite (store_app (A ++ B1 ++ B2) B3 C)
    by (rewrite ?length_app, ?length_object_cells; lia).
  cbn [defined mbind result_bind]. rewrite <- !app_assoc.
  rewrite (store_app A B1) by (rewrite ?length_encode; lia).
  cbn [defined mbind result_bind]. rewrite (app_assoc A).
  rewrite (store_app (A ++ encode 8 size) B2)
    by (rewrite ?length_app, ?length_encode; lia).
  cbn [defined mbind result_bind]. rewrite <- !app_assoc.
  unfold load_word.
  rewrite (load_app A (encode 8 size)) by (rewrite ?length_encode; lia).
  cbn [mbind option_bind]. rewrite decode_encode_word by done.
  cbn [defined mbind result_bind]. by rewrite size_add_small.
Qed.


Lemma split_buffer mem (c n : nat) :
  (c + 16 + n ≤ length mem)%nat →
  ∃ A B1 B2 B3 C,
    mem = A ++ B1 ++ B2 ++ B3 ++ C
    ∧ length A = c ∧ length B1 = 8%nat ∧ length B2 = 8%nat ∧ length B3 = n.
Proof.
  intros Hlen.
  exists (take c mem), (take 8 (drop c mem)), (take 8 (drop (c + 8) mem)),
    (take n (drop (c + 16) mem)), (drop (c + 16 + n) mem).
  split.
  - replace (drop (c + 8) mem) with (drop 8 (drop c mem))
      by (by rewrite drop_drop).
    replace (drop (c + 16) mem) with (drop 8 (drop 8 (drop c mem)))
      by (rewrite !drop_drop; f_equal; lia).
    replace (drop (c + 16 + n) mem) with (drop n (drop 8 (drop 8 (drop c mem))))
      by (rewrite !drop_drop; f_equal; lia).
    by rewrite !take_drop.
  - rewrite !length_take, !length_drop. lia.
Qed.

(** [place] succeeds wherever the slot fits between the cursor and the
    end of the buffer; the buffer keeps its length, the header holds the
    size, and the object lies 16 bytes behind the old cursor. *)
Lemma place_fits ty size i pages p :
  pages !! i = Some p →
  offsetof_data + Npos (sizeof ty) ≤ size →
  cursor p + size ≤ N.of_nat (length (memory p)) →
  N.of_nat (length (memory p)) < 2 ^ 63 →
  ∃ m,
    place ty size i pages
    = Ok (Ptr i (cursor p + offsetof_data),
          {| _pages := <[i := {| cursor := cursor p + size; memory := m |}]> pages |})
    ∧ length m = length (memory p)
    ∧ load_word m (cursor p) = Some size
    ∧ load_object m (cursor p + offsetof_data) = Some (ctor ty)
    ∧ load_word m (cursor p + offsetof_dtor) = Some (wrap (dtor ty)).
Proof.
  intros Hp Hsize Hfit Hlen. destruct p as [c mem]. cbn [cursor memory] in *.
  unfold offsetof_data, offsetof_dtor in *.
  destruct (split_buffer mem (N.to_nat c) (Pos.to_nat (sizeof ty)))
    as (A & B1 & B2 & B3 & C & -> & HA & HB1 & HB2 & HB3); [lia|].
  rewrite !length_app in Hfit, Hlen.
  eexists. split; [|split; [|split; [|split]]].
  - apply (place_at ty size i pages c A B1 B2 B3 C); try done; lia.
  - rewrite !length_app, !length_encode, length_object_cells. lia.
  - unfold load_word.
    rewrite (load_app A (encode 8 size)) by (rewrite ?length_encode; lia).
    cbn [mbind option_bind]. apply decode_encode_word. lia.
  - rewrite !app_assoc. rewrite <- (app_assoc _ _ C).
    apply load_object_app. rewrite !length_app, !length_encode. lia.
  - unfold load_word. rewrite (app_assoc A).
    rewrite (load_app (A ++ encode 8 size) (encode 8 (dtor ty)))
      by (rewrite ?length_app, ?length_encode; lia).
    cbn [mbind option_bind]. by rewrite decode_encode.
Qed.


Lemma has_room_fits size p :
  page_ok p → size < 2 ^ 63 →
  has_room size p ↔ cursor p + size < N.of_nat (length (memory p)).
Proof.
  intros [Hc Hlen] Hsize. unfold has_room.
  rewrite size_add_small; [done|]. rewrite pow63 in *. rewrite pow64. lia.
Qed.

(** The page that [add] appends when [find_if] finds none. *)
Lemma add_appends ty pool :
  list_find (has_room (footprint ty)) (_pages pool) = None →
  footprint_exact ty < 2 ^ 63 →
  ∃ m,
    add ty pool
    = Ok (Ptr (length (_pages pool)) offsetof_data,
          {| _pages := _pages pool
                       ++ [{| cursor := footprint ty; memory := m |}] |})
    ∧ N.of_nat (length m) = N.max 4096 (footprint ty)
    ∧ load_word m 0 = Some (footprint ty)
    ∧ load_object m offsetof_data = Some (ctor ty)
    ∧ load_word m offsetof_dtor = Some (wrap (dtor ty)).
Proof.
  intros Hfind Hsmall. unfold add. rewrite Hfind.
  assert (footprint ty = footprint_exact ty) as Hfp
    by (apply footprint_small; rewrite pow63 in *; rewrite pow64; lia).
  pose proof (footprint_exact_ge ty) as Hge.
  set (fresh := page_ctor (N.max 4096 (footprint ty))).
  assert (N.of_nat (length (memory fresh)) = N.max 4096 (footprint ty)) as Hlen
    by (unfold fresh, page_ctor; cbn [memory]; rewrite length_replicate; lia).
  destruct (place_fits ty (footprint ty) (length (_pages pool))
              (_pages pool ++ [fresh]) fresh)
    as (m & Hplace & Hm & Hword & Hobj & Hdtor).
  - by apply list_lookup_middle.
  - by rewrite Hfp.
  - rewrite Hlen. cbn. lia.
  - rewrite Hlen, Hfp. rewrite pow63 in *. lia.
  - exists m. rewrite Hplace. cbn [cursor] in *.
    rewrite !N.add_0_l in *.
    split; [|split; [lia|done]].
    do 3 f_equal. replace (length (_pages pool)) with (length (_pages pool) + 0)%nat by lia.
    by rewrite insert_app_r.
Qed.

(** On a pool that is [ok], [add] returns, the pool stays [ok], and the
    address returned is that of the constructed object. *)
Lemma add_returns ty pool :
  ok pool → footprint_exact ty < 2 ^ 63 →
  ∃ i off pool' p',
    add ty pool = Ok (Ptr i off, pool')
    ∧ ok pool'
    ∧ _pages pool' !! i = Some p'
    ∧ (N.to_nat off < length (memory p'))%nat
    ∧ load_object (memory p') off = Some (ctor ty).
Proof.
  intros Hok Hsmall.
  assert (footprint ty = footprint_exact ty) as Hfp
    by (apply footprint_small; rewrite pow63 in *; rewrite pow64; lia).
  pose proof (footprint_exact_ge ty) as Hge. unfold offsetof_data in *.
  destruct (list_find (has_room (footprint ty)) (_pages pool))
    as [[i p]|] eqn:Hfind.
  - unfold add. rewrite Hfind.
    apply list_find_Some in Hfind as (Hp & Hroom & _).
    assert (page_ok p) as Hpok
      by (by eapply (Forall_lookup_1 page_ok (_pages pool))).
    apply has_room_fits in Hroom; [|done|lia]. destruct Hpok as [Hc Hlen].
    destruct (place_fits ty (footprint ty) i (_pages pool) p)
      as (m & Hplace & Hm & Hword & Hobj & _);
      [done|unfold offsetof_data; lia|lia|done|].
    eexists i, _, _, _. split; [exact Hplace|]. cbn [_pages].
    split; [|split; [|split]].
    + apply Forall_insert; [done|]. split; cbn [cursor memory]; lia.
    + apply list_lookup_insert_eq. by eapply lookup_lt_Some.
    + cbn [memory]. unfold offsetof_data. lia.
    + done.
  - destruct (add_appends ty pool Hfind Hsmall)
      as (m & Hadd & Hm & Hword & Hobj & _).
    eexists _, _, _, _. split; [exact Hadd|]. cbn [_pages].
    split; [|split; [|split]].
    + apply Forall_app. split; [done|]. apply Forall_singleton.
      split; cbn [cursor memory]; rewrite ?Hm, ?Hfp; rewrite pow63 in *; lia.
    + by apply list_lookup_middle.
    + cbn [memory]. unfold offsetof_data. lia.
    + done.
Qed.


(** *** The layout of the pages *)

Lemma regular_footprint ty :
  regular ty →
  footprint ty = footprint_exact ty
  ∧ offsetof_data + Npos (sizeof ty) ≤ footprint ty
  ∧ footprint ty < 4096
  ∧ footprint ty `mod` 8 = 0.
Proof.
  intros (Hmod & Hlt & _).
  assert (footprint ty = footprint_exact ty) as ->
    by (apply footprint_small; rewrite pow64; lia).
  by pose proof (footprint_exact_ge ty).
Qed.

Lemma length_slot_cells (s : slot) :
  regular s.1 → N.of_nat (length (slot_cells s)) = footprint s.1.
Proof.
  intros (_ & Hge & _ & _)%regular_footprint. unfold slot_cells, offsetof_data in *.
  rewrite !length_app, !length_encode, length_object_cells, length_replicate.
  lia.
Qed.

Lemma cells_cons (s : slot) slots :
  cells (s :: slots) = slot_cells s ++ cells slots.
Proof. done. Qed.

Lemma cells_snoc slots (s : slot) :
  cells (slots ++ [s]) = cells slots ++ slot_cells s.
Proof. unfold cells. by rewrite bind_app, bind_singleton. Qed.

Lemma extent_cons (s : slot) slots :
  regular s.1 → extent (s :: slots) = footprint s.1 + extent slots.
Proof.
  intros Hs. unfold extent. rewrite cells_cons, length_app.
  rewrite <- (length_slot_cells s Hs). lia.
Qed.

Lemma extent_snoc slots (s : slot) :
  regular s.1 → extent (slots ++ [s]) = extent slots + footprint s.1.
Proof.
  intros Hs. unfold extent. rewrite cells_snoc, length_app.
  rewrite <- (length_slot_cells s Hs). lia.
Qed.

Lemma extent_words slots :
  Forall (λ s : slot, regular s.1) slots → extent slots `mod` 8 = 0.
Proof.
  induction 1 as [|s slots Hs _ IH]; [done|].
  rewrite extent_cons by done.
  apply regular_footprint in Hs as (_ & _ & _ & Hs).
  by rewrite N.Div0.add_mod, Hs, IH.
Qed.

(** [place] at the end of the slots of a buffer that is zero from the
    cursor on. *)
Lemma place_zeros ty i pages A free :
  pages !! i = Some {| cursor := N.of_nat (length A);
                       memory := A ++ replicate free (Byte 0) |} →
  regular ty →
  (N.to_nat (footprint ty) ≤ free)%nat →
  N.of_nat (length A) + footprint ty < 2 ^ 64 →
  place ty (footprint ty) i pages
  = Ok (Ptr i (N.of_nat (length A) + offsetof_data),
        {| _pages :=
             <[i := {| cursor := N.of_nat (length A) + footprint ty;
                       memory := A ++ slot_cells (ty, ctor ty)
                                 ++ replicate (free - N.to_nat (footprint ty))
                                      (Byte 0) |}]>
               pages |}).
Proof.
  intros Hp Hreg Hfree Hsum.
  pose proof (regular_footprint ty Hreg) as (_ & Hge & Hlt & _).
  unfold offsetof_data in Hge.
  set (n := Pos.to_nat (sizeof ty)).
  assert (free = 8 + (8 + (n + (free - 16 - n))))%nat as Hsplit by lia.
  rewrite Hsplit, !replicate_add in Hp.
  rewrite (place_at _ _ _ _ _ _ _ _ _ _ Hp);
    try (by rewrite ?length_replicate); [|rewrite pow64; lia].
  unfold slot_cells. cbn [fst snd]. rewrite <- !app_assoc.
  do 7 f_equal. fold n. rewrite <- replicate_add. subst n.
  by replace (free - 16 - Pos.to_nat (sizeof ty))%nat
    with (N.to_nat (footprint ty) - 16 - Pos.to_nat (sizeof ty)
          + (free - N.to_nat (footprint ty)))%nat by lia.
Qed.


Lemma objects_from_app pg (l1 l2 : list (list slot)) :
  objects_from pg (l1 ++ l2)
  = objects_from pg l1 ++ objects_from (pg + length l1) l2.
Proof.
  revert pg. induction l1 as [|slots l1 IH]; intros pg; cbn [objects_from app length].
  - by rewrite Nat.add_0_r.
  - rewrite IH, <- app_assoc. do 3 f_equal. lia.
Qed.

Lemma page_objects_snoc pg off slots (s : slot) :
  Forall (λ s : slot, regular s.1) slots →
  page_objects pg off (slots ++ [s])
  = page_objects pg off slots
    ++ [(s.1, Ptr pg (off + extent slots + offsetof_data))].
Proof.
  intros Hreg. revert off.
  induction Hreg as [|s' slots Hs' _ IH]; intros off; cbn [page_objects app].
  - unfold extent. cbn. by rewrite N.add_0_r.
  - by rewrite IH, extent_cons, N.add_assoc.
Qed.

Lemma objects_from_insert (layout : list (list slot)) i slots (s : slot) :
  layout !! i = Some slots →
  Forall (λ s : slot, regular s.1) slots →
  objects_from 0 (<[i := slots ++ [s]]> layout)
  ≡ₚ objects_from 0 layout ++ [(s.1, Ptr i (extent slots + offsetof_data))].
Proof.
  intros Hi Hreg.
  pose proof (take_drop_middle layout i slots Hi) as Hsplit.
  assert (length (take i layout) = i) as Hlen
    by (apply length_take_le, Nat.lt_le_incl; by eapply lookup_lt_Some).
  rewrite <- Hsplit at 1 2.
  rewrite insert_app_r_alt by lia. rewrite Hlen, Nat.sub_diag. cbn [insert list_insert].
  rewrite !objects_from_app. cbn [objects_from]. rewrite Hlen, Nat.add_0_l.
  rewrite page_objects_snoc, N.add_0_l by done.
  rewrite <- !app_assoc. apply Permutation_app_head, Permutation_app_head.
  apply Permutation_app_comm.
Qed.

Lemma holds_length slots p :
  holds slots p →
  length (memory p) = 4096%nat ∧ cursor p = N.of_nat (length (cells slots)).
Proof.
  intros (_ & _ & Hc & Hlt & ->). unfold extent in Hc.
  rewrite length_app, length_replicate. split; [lia|done].
Qed.

Lemma regular_fits_fresh_page ty :
  regular ty → N.to_nat (N.max 4096 (footprint ty)) = 4096%nat.
Proof. intros (_ & _ & Hlt & _)%regular_footprint. lia. Qed.

(** [add] keeps the layout: it puts the new slot behind the slots of
    the first page with room, or alone into a new page. *)
Lemma add_holds ty pool layout :
  Forall2 holds layout (_pages pool) → regular ty →
  ∃ ptr pool' layout',
    add ty pool = Ok (ptr, pool')
    ∧ Forall2 holds layout' (_pages pool')
    ∧ objects_from 0 layout' ≡ₚ objects_from 0 layout ++ [(ty, ptr)].
Proof.
  intros Hlayout Hreg.
  pose proof (regular_footprint ty Hreg) as (Hfp & Hge & Hlt & Hw).
  unfold add.
  destruct (list_find (has_room (footprint ty)) (_pages pool))
    as [[i p]|] eqn:Hfind.
  - apply list_find_Some in Hfind as (Hp & Hroom & _).
    destruct (Forall2_lookup_r _ _ _ _ _ Hlayout Hp) as (slots & Hslots & Hholds).
    pose proof (holds_length _ _ Hholds) as [Hlen Hcur].
    destruct Hholds as (Hne & Hregs & Hc & Hc4096 & Hmem).
    unfold has_room in Hroom. rewrite Hlen in Hroom.
    rewrite size_add_small in Hroom by (rewrite pow64; lia).
    destruct p as [c mem]. cbn [cursor memory] in *. subst c mem.
    erewrite place_zeros; [| |done| |]; cycle 1.
    { rewrite Hp. done. } { lia. } { rewrite pow64. lia. }
    eexists _, _, (<[i := slots ++ [(ty, ctor ty)]]> layout).
    split; [done|]. cbn [_pages]. split.
    + apply Forall2_insert; [done|]. split; [by destruct slots|].
      split; [apply Forall_app; split; [done|by apply Forall_singleton]|].
      cbn [cursor memory]. rewrite extent_snoc by done. cbn [fst].
      unfold extent. split; [done|]. split; [lia|].
      rewrite cells_snoc, <- app_assoc. do 2 f_equal.
      rewrite length_app. f_equal.
      pose proof (length_slot_cells (ty, ctor ty) Hreg). cbn [fst] in *. lia.
    + apply (objects_from_insert layout i slots (ty, ctor ty)); done.
  - pose proof (Forall2_length _ _ _ Hlayout) as Hlens.
    rewrite (place_zeros ty _ _ [] 4096); cycle 1.
    { unfold page_ctor. rewrite regular_fits_fresh_page by done.
      by apply list_lookup_middle. }
    { done. } { lia. } { cbn [length]. rewrite pow64. lia. }
    eexists _, _, (layout ++ [[(ty, ctor ty)]]).
    split; [done|]. cbn [_pages]. split.
    + replace (length (_pages pool)) with (length (_pages pool) + 0)%nat by lia.
      rewrite insert_app_r. cbn [insert list_insert].
      apply Forall2_app; [done|]. apply Forall2_cons; split; [|done].
      split; [done|]. split; [by apply Forall_singleton|].
      cbn [cursor memory length app]. rewrite N.add_0_l.
      unfold extent, cells. rewrite bind_singleton.
      rewrite (length_slot_cells (ty, ctor ty)) by done. cbn [fst].
      split; [done|]. split; [done|]. do 2 f_equal.
      pose proof (length_slot_cells (ty, ctor ty) Hreg). cbn [fst] in *. lia.
    + rewrite objects_from_app. cbn [objects_from page_objects fst].
      rewrite Nat.add_0_l, N.add_0_l, Hlens. cbn [length]. by rewrite app_nil_r.
Qed.


(** *** clear *)

Lemma load_word_size pre (s : slot) rest :
  regular s.1 →
  load_word (pre ++ slot_cells s ++ rest) (N.of_nat (length pre) + offsetof_size)
  = Some (footprint s.1).
Proof.
  intros (_ & _ & Hlt & _)%regular_footprint.
  unfold slot_cells, load_word, offsetof_size. rewrite N.add_0_r, <- !app_assoc.
  rewrite (load_app pre (encode 8 (footprint s.1))) by (by rewrite ?length_encode).
  cbn [mbind option_bind]. apply decode_encode_word. rewrite pow64. lia.
Qed.

Lemma load_word_dtor pre (s : slot) rest :
  regular s.1 →
  load_word (pre ++ slot_cells s ++ rest) (N.of_nat (length pre) + offsetof_dtor)
  = Some (dtor s.1).
Proof.
  intros (_ & _ & Hdtor). unfold slot_cells, load_word, offsetof_dtor.
  rewrite <- !app_assoc, (app_assoc pre).
  rewrite (load_app (pre ++ encode 8 (footprint s.1)) (encode 8 (dtor s.1)))
    by (rewrite ?length_app, ?length_encode; lia).
  cbn [mbind option_bind]. by apply decode_encode_word.
Qed.

Lemma load_word_zeros pre free :
  (8 ≤ free)%nat →
  load_word (pre ++ replicate free (Byte 0)) (N.of_nat (length pre) + offsetof_size)
  = Some 0.
Proof.
  intros Hfree. unfold load_word, offsetof_size. rewrite N.add_0_r.
  replace free with (8 + (free - 8))%nat by lia. rewrite replicate_add.
  rewrite (load_app pre (replicate 8 (Byte 0))) by (by rewrite ?length_replicate).
  done.
Qed.

Lemma footprint_pos ty : regular ty → 0 < footprint ty.
Proof. intros (_ & Hge & _)%regular_footprint. unfold offsetof_data in *. lia. Qed.

(** The walk of [clear] over the slots of a page: it calls the
    destructor of each slot once, in order, and stops at the zero word
    behind the last slot. *)
Lemma clear_loop_slots slots : ∀ (s : slot) pre cursor calls fuel pg free,
  Forall (λ s : slot, regular s.1) (s :: slots) →
  (8 ≤ free)%nat →
  (length slots < fuel)%nat →
  extent slots < cursor → cursor < 2 ^ 64 →
  clear_loop fuel pg (pre ++ cells (s :: slots) ++ replicate free (Byte 0))
    (N.of_nat (length pre)) cursor calls
  = Leaves (cursor - extent slots)
      (calls ++ (destroys <$> page_objects pg (N.of_nat (length pre)) (s :: slots))).
Proof.
  induction slots as [|s' slots IH];
    intros s pre cursor calls fuel pg free Hreg Hfree Hfuel Hcur Hmax;
    (destruct fuel as [|fuel]; [cbn [length] in Hfuel; lia|]);
    apply Forall_cons in Hreg as [Hs Hreg];
    rewrite cells_cons, <- app_assoc; cbn [clear_loop];
    rewrite load_word_dtor, load_word_size by done.
  - replace (N.of_nat (length pre) + footprint s.1)
      with (N.of_nat (length (pre ++ slot_cells s)))
      by (rewrite length_app, <- (length_slot_cells s Hs); lia).
    rewrite (app_assoc pre). cbn [cells mbind list_bind app].
    rewrite load_word_zeros by done.
    rewrite decide_False by lia.
    unfold extent. cbn [cells mbind list_bind length page_objects fmap list_fmap].
    by rewrite N.sub_0_r.
  - apply Forall_cons in Hreg as [Hs' Hreg].
    pose proof (footprint_pos _ Hs') as Hpos.
    pose proof (proj1 (proj2 (proj2 (regular_footprint _ Hs')))) as Hlt'.
    rewrite extent_cons in Hcur by done.
    replace (N.of_nat (length pre) + footprint s.1)
      with (N.of_nat (length (pre ++ slot_cells s)))
      by (rewrite length_app, <- (length_slot_cells s Hs); lia).
    rewrite (app_assoc pre), cells_cons, <- (app_assoc (slot_cells s')).
    rewrite load_word_size by done.
    rewrite decide_True by done.
    rewrite size_sub_exact by (rewrite ?pow64 in *; lia).
    rewrite decide_True by lia.
    rewrite (app_assoc (slot_cells s')), <- cells_cons.
    rewrite IH; [|by apply Forall_cons|done|cbn [length] in Hfuel; lia|lia
                |rewrite pow64 in *; lia].
    rewrite extent_cons by done. f_equal; [lia|].
    rewrite <- app_assoc. f_equal. cbn [page_objects fmap list_fmap app].
    replace (N.of_nat (length (pre ++ slot_cells s)))
      with (N.of_nat (length pre) + footprint s.1)
      by (rewrite length_app, <- (length_slot_cells s Hs); lia).
    done.
Qed.


Lemma length_le_cells slots :
  Forall (λ s : slot, regular s.1) slots →
  (length slots ≤ length (cells slots))%nat.
Proof.
  induction 1 as [|s slots Hs _ IH]; [done|].
  rewrite cells_cons, length_app. cbn [length].
  pose proof (length_slot_cells s Hs). pose proof (footprint_pos _ Hs). lia.
Qed.

Lemma words_below_page_end n : n `mod` 8 = 0 → n < 4096 → n + 8 ≤ 4096.
Proof.
  intros Hmod Hlt. pose proof (N.div_mod' n 8) as Hn. rewrite Hmod in Hn.
  set (q := n `div` 8) in *. clearbody q. lia.
Qed.

Lemma clear_page_holds pg slots p calls :
  holds slots p →
  ∃ c, clear_page pg p calls
       = Leaves c (calls ++ (destroys <$> page_objects pg 0 slots)).
Proof.
  intros (Hne & Hreg & Hc & Hlt & Hmem).
  destruct slots as [|s slots]; [done|].
  pose proof (extent_words _ Hreg) as Hwords.
  pose proof (words_below_page_end _ Hwords) as Hend.
  assert (extent (s :: slots) < 4096) as Hlt' by (by rewrite <- Hc).
  pose proof (length_le_cells _ Hreg) as Hfuel.
  pose proof (Forall_inv Hreg) as Hs. pose proof (footprint_pos _ Hs) as Hpos.
  specialize (Hend Hlt'). unfold extent in Hend.
  rewrite extent_cons in Hc by done.
  cbn [length] in Hfuel. rewrite Hc in Hlt.
  eexists. unfold clear_page. rewrite Hmem, Hc.
  apply (clear_loop_slots slots s [] _ _ _ pg _); try done.
  - lia.
  - rewrite length_app. lia.
  - lia.
  - rewrite pow64. lia.
Qed.

Lemma clear_pages_layout layout : ∀ pages pg before calls,
  Forall2 holds layout pages →
  ∃ pool', clear_pages pg pages before calls
           = Returned pool' (calls ++ (destroys <$> objects_from pg layout)).
Proof.
  induction layout as [|slots layout IH]; intros pages pg before calls Hl.
  - apply Forall2_nil_inv_l in Hl as ->. eexists. cbn. by rewrite app_nil_r.
  - apply Forall2_cons_inv_l in Hl as (p & pages' & Hp & Hl & ->).
    cbn [clear_pages objects_from].
    destruct (clear_page_holds pg slots p calls Hp) as (c & ->).
    destruct (IH pages' (S pg) (before ++ [{| cursor := c; memory := memory p |}])
                (calls ++ (destroys <$> page_objects pg 0 slots)) Hl)
      as (pool' & ->).
    exists pool'. by rewrite fmap_app, app_assoc.
Qed.


(** *** add and clear together *)

Lemma add_all_layout tys : ∀ pool layout,
  Forall2 holds layout (_pages pool) → Forall regular tys →
  ∃ ptrs pool' layout',
    add_all tys pool = Ok (ptrs, pool')
    ∧ Forall2 holds layout' (_pages pool')
    ∧ length ptrs = length tys
    ∧ objects_from 0 layout' ≡ₚ objects_from 0 layout ++ zip tys ptrs.
Proof.
  induction tys as [|ty tys IH]; intros pool layout Hl Hreg.
  - exists [], pool, layout. by rewrite app_nil_r.
  - apply Forall_cons in Hreg as [Hty Hreg].
    destruct (add_holds ty pool layout Hl Hty)
      as (ptr & pool1 & layout1 & Hadd & Hl1 & Hperm1).
    destruct (IH pool1 layout1 Hl1 Hreg)
      as (ptrs & pool2 & layout2 & Hall & Hl2 & Hlen & Hperm2).
    exists (ptr :: ptrs), pool2, layout2. cbn [add_all]. rewrite Hadd.
    cbn [mbind result_bind]. rewrite Hall. cbn [mbind result_bind].
    split; [done|]. split; [done|]. split; [by cbn; rewrite Hlen|].
    rewrite Hperm2, Hperm1, <- app_assoc. done.
Qed.

Lemma page_objects_pointers pg off slots (a : T * pointer) :
  a ∈ page_objects pg off slots →
  ∃ o, a.2 = Ptr pg o ∧ off + offsetof_data ≤ o.
Proof.
  revert off. induction slots as [|s slots IH]; intros off; cbn [page_objects].
  - by intros ?%elem_of_nil.
  - intros [->|Ha]%elem_of_cons.
    + by eexists.
    + destruct (IH _ Ha) as (o & Ho & Hle). exists o. split; [done|lia].
Qed.

Lemma NoDup_page_objects pg off slots :
  Forall (λ s : slot, regular s.1) slots →
  NoDup (page_objects pg off slots).*2.
Proof.
  intros Hreg. revert off.
  induction Hreg as [|s slots Hs _ IH]; intros off; cbn [page_objects fmap list_fmap].
  - apply NoDup_nil_2.
  - apply NoDup_cons. split; [|apply IH].
    intros (a & Ha & (o & Ho & Hle)%page_objects_pointers)%list_elem_of_fmap.
    cbn [snd] in Ha. rewrite Ho in Ha. injection Ha as Ha.
    pose proof (footprint_pos _ Hs). lia.
Qed.

Lemma objects_from_pointers pg layout (a : T * pointer) :
  a ∈ objects_from pg layout → ∃ pg' o, a.2 = Ptr pg' o ∧ (pg ≤ pg')%nat.
Proof.
  revert pg. induction layout as [|slots layout IH]; intros pg; cbn [objects_from].
  - by intros ?%elem_of_nil.
  - intros [Ha|Ha]%elem_of_app.
    + apply page_objects_pointers in Ha as (o & Ho & _). by eexists _, _.
    + destruct (IH _ Ha) as (pg' & o & Ho & Hle). exists pg', o. split; [done|lia].
Qed.

Lemma NoDup_objects_from pg layout :
  Forall (Forall (λ s : slot, regular s.1)) layout →
  NoDup (objects_from pg layout).*2.
Proof.
  intros Hreg. revert pg.
  induction Hreg as [|slots layout Hs _ IH]; intros pg; cbn [objects_from].
  - apply NoDup_nil_2.
  - rewrite fmap_app. apply NoDup_app.
    split; [by apply NoDup_page_objects|]. split; [|apply IH].
    intros ptr (a & -> & (o & Ho & _)%page_objects_pointers)%list_elem_of_fmap.
    intros (b & Hb & (pg' & o' & Ho' & Hle)%objects_from_pointers)%list_elem_of_fmap.
    rewrite Ho, Ho' in Hb. injection Hb as Hpg Ho''. lia.
Qed.

Lemma holds_regular layout pages :
  Forall2 holds layout pages →
  Forall (Forall (λ s : slot, regular s.1)) layout.
Proof.
  induction 1 as [|slots p layout pages (_ & Hreg & _) _ IH];
    [done|by apply Forall_cons].
Qed.

(** X1.  Every object that [add] made in an empty pool, for types whose
    slots are whole words and smaller than a page, is destroyed by
    [clear] exactly once: [clear] returns, and its calls are, up to
    their order, one call of the destructor of each type on the address
    [add] returned for it; the addresses differ from one another. *)
Theorem clear_destroys_each_object_once tys :
  Forall regular tys →
  ∃ ptrs pool pool' calls,
    add_all tys empty = Ok (ptrs, pool)
    ∧ clear pool = Returned pool' calls
    ∧ length ptrs = length tys
    ∧ length calls = length tys
    ∧ NoDup ptrs
    ∧ calls ≡ₚ destroys <$> zip tys ptrs.
Proof.
  intros Hreg.
  destruct (add_all_layout tys empty [] (Forall2_nil_2 _ _ holds) Hreg)
    as (ptrs & pool & layout & Hall & Hl & Hlen & Hperm).
  destruct (clear_pages_layout layout (_pages pool) 0 [] [] Hl) as (pool' & Hclear).
  cbn [objects_from app] in *.
  exists ptrs, pool, pool', (destroys <$> objects_from 0 layout).
  split; [done|]. split; [done|]. split; [done|].
  assert ((objects_from 0 layout).*2 ≡ₚ ptrs) as Hptrs.
  { rewrite Hperm. rewrite snd_zip; [done|lia]. }
  split; [|split].
  - rewrite length_fmap, Hperm, length_zip. lia.
  - rewrite <- Hptrs. eapply NoDup_objects_from, holds_regular, Hl.
  - by rewrite Hperm.
Qed.

(** X16.  A slot of 4096 bytes or more fills the page that [add] makes
    for it; [clear] calls its destructor and then reads the size of a
    next slot behind the end of the buffer. *)
Lemma clear_strays_behind_a_large_slot ty :
  4096 ≤ footprint_exact ty → footprint_exact ty < 2 ^ 63 →
  ∃ pool,
    add ty empty = Ok (Ptr 0 offsetof_data, pool)
    ∧ page_sizes pool = [(footprint ty, footprint ty)]
    ∧ clear pool = Astray [Call (wrap (dtor ty)) (Ptr 0 offsetof_data)].
Proof.
  intros Hlarge Hsmall.
  destruct (add_appends ty empty eq_refl Hsmall)
    as (m & Hadd & Hm & Hsize & _ & Hdtor).
  assert (footprint ty = footprint_exact ty) as Hfp
    by (apply footprint_small; rewrite pow63 in *; rewrite pow64; lia).
  eexists. split; [exact Hadd|]. cbn [_pages app empty].
  split; [unfold page_sizes; cbn; do 2 f_equal; lia|].
  unfold clear, clear_pages, clear_page. cbn [_pages cursor memory].
  remember (S (length m)) as fuel eqn:Hfuel. cbn [clear_loop].
  rewrite !N.add_0_l. unfold offsetof_size. rewrite Hdtor, Hsize, N.add_0_r.
  unfold load_word, load. by rewrite decide_False by lia.
Qed.

(** The walk over a page always ends within the fuel it is given, on
    any buffer: from the second round on it moves forward by at least
    one byte, and it cannot read behind the end of the buffer. *)
Lemma clear_loop_ends fuel : ∀ pg mem node cursor calls size,
  load_word mem (node + offsetof_size) = Some size → 0 < size →
  (length mem < fuel + N.to_nat node)%nat →
  clear_loop fuel pg mem node cursor calls ≠ Unfinished.
Proof.
  induction fuel as [|fuel IH]; intros pg mem node cursor calls size Hsize Hpos Hfuel.
  - unfold load_word, load, offsetof_size in Hsize.
    destruct (decide _) as [Hin|]; [lia|done].
  - cbn [clear_loop]. destruct (load_word mem (node + offsetof_dtor)); [|done].
    rewrite Hsize.
    destruct (load_word mem (node + size + offsetof_size)) as [next|] eqn:Hnext;
      [|done].
    destruct (decide (0 < next)); [|done].
    destruct (decide (0 < size_sub cursor next)); [|done].
    eapply IH; [done|done|lia].
Qed.

Lemma clear_page_ends pg p calls : clear_page pg p calls ≠ Unfinished.
Proof.
  unfold clear_page. remember (S (length (memory p))) as fuel eqn:Hfuel.
  cbn [clear_loop].
  destruct (load_word (memory p) (0 + offsetof_dtor)); [|done].
  destruct (load_word (memory p) (0 + offsetof_size)) as [size|]; [|done].
  destruct (load_word (memory p) (0 + size + offsetof_size)) as [next|] eqn:Hnext;
    [|done].
  destruct (decide (0 < next)); [|done].
  destruct (decide (0 < size_sub (cursor p) next)); [|done].
  eapply clear_loop_ends; [done|done|lia].
Qed.

(** [clear] is total in the embedding: the fuel of the walk never runs
    out. *)
Lemma clear_ends pool : clear pool ≠ NoFuel.
Proof.
  unfold clear. generalize (@nil page) at 1, (@nil call), 0%nat.
  induction (_pages pool) as [|p pages IH]; intros before calls pg; [done|].
  cbn [clear_pages]. pose proof (clear_page_ends pg p calls).
  destruct (clear_page pg p calls); [apply IH|done|done].
Qed.

End PoolFacts.

Section PoolClaims.
Import memory_pool.
Context `{!Env}.
Implicit Types (p : page) (ty : T).

(** C6.  When no page of the pool has room for the slot of [T] behind
    its cursor, [add<T>] returns: it appends a page of
    [max(4096, footprint)] bytes, builds the slot at its start and
    returns the address of the object in it. *)
Theorem add_appends_a_page_when_none_has_room ty pool :
  ok pool → footprint_exact ty < 2 ^ 63 →
  Forall (λ p, room p < footprint ty) (_pages pool) →
  ∃ m,
    add ty pool
    = Ok (Ptr (length (_pages pool)) offsetof_data,
          {| _pages := _pages pool
                       ++ [{| cursor := footprint ty; memory := m |}] |})
    ∧ N.of_nat (length m) = N.max 4096 (footprint ty)
    ∧ load_word m offsetof_size = Some (footprint ty)
    ∧ load_object m offsetof_data = Some (ctor ty).
Proof.
  intros Hok Hsmall Hfull.
  cut (list_find (has_room (footprint ty)) (_pages pool) = None).
  { intros Hfind.
    destruct (add_appends ty pool Hfind Hsmall) as (m & ? & ? & ? & ? & _).
    by exists m. }
  apply list_find_None, Forall_forall. intros p Hp.
  pose proof (proj1 (Forall_forall _ _) Hok p Hp) as Hpok.
  pose proof (proj1 (Forall_forall _ _) Hfull p Hp) as Hroom.
  assert (footprint ty = footprint_exact ty) as Hfp
    by (apply footprint_small; rewrite pow63 in *; rewrite pow64; lia).
  rewrite has_room_fits by (by rewrite ?Hfp).
  unfold room in Hroom. lia.
Qed.

End PoolClaims.

(** C1 at pages that [add] filled to their end.  An object whose slot
    takes 5000 bytes gets a page of 5000 bytes, one whose slot takes 4096
    bytes fills a page of 4096 bytes; on either, [clear] calls the
    destructor and then reads the size of a next slot behind the end of
    the buffer.  With two such objects in the pool [clear] goes astray on
    the first page, before any call for the second. *)
Theorem clear_strays_behind_a_filled_page :
  @memory_pool.add_all sized [4984%positive] memory_pool.empty
  = Ok ([Ptr 0 16], sized_pool [4984%positive])
  ∧ page_sizes (sized_pool [4984%positive]) = [(5000, 5000)]
  ∧ memory_pool.clear (sized_pool [4984%positive])
    = memory_pool.Astray [memory_pool.Call (0x1000 + 4984) (Ptr 0 16)]
  ∧ page_sizes (sized_pool [4080%positive]) = [(4096, 4096)]
  ∧ memory_pool.clear (sized_pool [4080%positive])
    = memory_pool.Astray [memory_pool.Call (0x1000 + 4080) (Ptr 0 16)]
  ∧ page_sizes (sized_pool [4984%positive; 4984%positive])
    = [(5000, 5000); (5000, 5000)]
  ∧ memory_pool.clear (sized_pool [4984%positive; 4984%positive])
    = memory_pool.Astray [memory_pool.Call (0x1000 + 4984) (Ptr 0 16)].
Proof. repeat split; vm_compute; reflexivity. Qed.

(** A pool whose only page has 80 bytes left, and a slot of 116 bytes. *)
Lemma add_appends_a_page_when_none_has_room_witness :
  @memory_pool.ok sized (sized_pool [4000%positive])
  ∧ @memory_pool.footprint_exact sized 100%positive < 2 ^ 63
  ∧ Forall (λ p, memory_pool.room p < @memory_pool.footprint sized 100%positive)
      (memory_pool._pages (sized_pool [4000%positive]))
  ∧ ∃ m,
      @memory_pool.add sized 100%positive (sized_pool [4000%positive])
      = Ok (Ptr (length (memory_pool._pages (sized_pool [4000%positive])))
              memory_pool.offsetof_data,
            {| memory_pool._pages :=
                 memory_pool._pages (sized_pool [4000%positive])
                 ++ [{| memory_pool.cursor := @memory_pool.footprint sized 100%positive;
                        memory_pool.memory := m |}] |})
      ∧ N.of_nat (length m) = N.max 4096 (@memory_pool.footprint sized 100%positive)
      ∧ memory_pool.load_word m memory_pool.offsetof_size
        = Some (@memory_pool.footprint sized 100%positive)
      ∧ memory_pool.load_object m memory_pool.offsetof_data
        = Some (@memory_pool.ctor sized 100%positive).
Proof.
  split; [evaluate|]. split; [evaluate|]. split; [evaluate|].
  apply (@add_appends_a_page_when_none_has_room sized); evaluate.
Defined.

(** Seven objects on three pages. *)
Lemma clear_destroys_each_object_once_witness :
  let tys : list (@memory_pool.T sized) :=
    [8; 16; 2000; 2000; 8; 104; 4000]%positive in
  Forall (@memory_pool.regular sized) tys
  ∧ ∃ ptrs (pool pool' : @memory_pool.t sized) calls,
      @memory_pool.add_all sized tys memory_pool.empty = Ok (ptrs, pool)
      ∧ memory_pool.clear pool = memory_pool.Returned pool' calls
      ∧ length ptrs = length tys
      ∧ length calls = length tys
      ∧ NoDup ptrs
      ∧ calls ≡ₚ @memory_pool.destroys sized <$> zip tys ptrs.
Proof.
  split; [evaluate|].
  apply (@clear_destroys_each_object_once sized). evaluate.
Defined.

(** ** The node tree *)

Section TreeClaims.
Context `{!Lexer.t, !nodetree.ABI}.

(** C5.  [make_node<T>(l)] returns the address of an object whose tag is
    the one fixed for [T] and whose location is [l]; the pool stays as
    [add] needs it for the next call. *)
Theorem make_node_tag_and_location T l tree :
  memory_pool.ok (nodetree._pool tree) →
  memory_pool.footprint_exact T < 2 ^ 63 →
  ∃ node tree' o,
    nodetree.make_node T l tree = Ok (node, tree')
    ∧ nodetree.deref (nodetree._pool tree') node = Some o
    ∧ id (header o) = shape.tag T
    ∧ location (header o) = l
    ∧ memory_pool.ok (nodetree._pool tree').
Proof.
  intros Hok Hsmall.
  destruct (add_returns T (nodetree._pool tree) Hok Hsmall)
    as (i & off & pool' & p' & Hadd & Hok' & Hp' & Hoff & Hobj).
  unfold nodetree.make_node. rewrite Hadd. cbn [mbind result_bind].
  unfold nodetree.set_location. rewrite Hp'. cbn [defined mbind result_bind].
  rewrite Hobj. cbn [defined mbind result_bind].
  unfold memory_pool.store. rewrite decide_True by (cbn [length]; lia).
  cbn [defined mbind result_bind].
  eexists _, _, _. split; [reflexivity|].
  cbn [nodetree.deref nodetree._pool memory_pool._pages].
  rewrite list_lookup_insert_eq by (by eapply lookup_lt_Some).
  cbn [memory_pool.memory]. unfold memory_pool.load_object.
  rewrite lookup_app_r by (rewrite length_take; lia).
  rewrite length_take_le, Nat.sub_diag by lia. cbn [lookup list_lookup app].
  split; [reflexivity|]. rewrite assign_location_header. cbn [id location].
  split; [apply construct_id|]. split; [done|].
  apply Forall_insert; [done|].
  destruct (proj1 (Forall_lookup _ _) Hok' i p' Hp') as [Hc Hlen].
  split; cbn [memory_pool.cursor memory_pool.memory];
    rewrite length_app, length_take; cbn [length];
    rewrite length_drop; cbn [length]; lia.
Qed.

End TreeClaims.

(** A [Pass] made in an empty tree. *)
Lemma make_node_tag_and_location_witness :
  let l : @Lexer.location plain_lexer := ("effect.fx"%string, 12, 5) in
  let tree := @nodetree.empty plain_lexer plain_abi in
  memory_pool.ok (nodetree._pool tree)
  ∧ @memory_pool.footprint_exact (@nodetree.env plain_lexer plain_abi) shape.Pass
    < 2 ^ 63
  ∧ ∃ node tree' o,
      nodetree.make_node shape.Pass l tree = Ok (node, tree')
      ∧ nodetree.deref (nodetree._pool tree') node = Some o
      ∧ id (header o) = shape.tag shape.Pass
      ∧ location (header o) = l
      ∧ memory_pool.ok (nodetree._pool tree').
Proof.
  split; [evaluate|]. split; [evaluate|].
  apply (@make_node_tag_and_location plain_lexer plain_abi); evaluate.
Defined.

(** * Further properties *)

(** ** The type descriptor, by tables *)

Section TypeTables.
Implicit Types (ty : Type_) (q : Qualifier.t).

(** X9.  The predicates on the base class exclude one another, and one
    of them holds unless the class is [Texture3D] or [String], which
    none of them recognises. *)
Theorem base_class_predicates ty :
  let tests := [IsVoid ty; IsBoolean ty; IsIntegral ty; IsFloatingPoint ty;
                IsSampler ty; IsTexture ty; IsStruct ty] in
  (holding tests ≤ 1)%nat
  ∧ (holding tests = 0%nat ↔
       BaseClass ty = Class.Texture3D ∨ BaseClass ty = Class.String).
Proof.
  cbn zeta. rewrite !holding_cons, holding_nil.
  unfold IsVoid, IsBoolean, IsIntegral, IsFloatingPoint, IsSampler, IsTexture,
    IsStruct, Class.geb, Class.leb.
  destruct (BaseClass ty); vm_compute; (split; [lia|]); split;
    try discriminate; try (intros [?|?]; discriminate); auto.
Qed.

(** X10.  Vector and scalar in terms of the dimensions alone: a vector
    has more than one row and at most one column; a scalar is numeric,
    no array, and has no row at all or one row and at most one column.
    So a descriptor with one row and several columns is a matrix, and
    one without rows is a scalar whatever its columns. *)
Theorem vector_and_scalar_by_dimensions ty :
  (IsVector ty = true ↔ 1 < Rows ty ∧ Cols ty ≤ 1)
  ∧ (IsScalar ty = true ↔
       IsNumeric ty = true ∧ ArrayLength ty = 0%Z
       ∧ (Rows ty = 0 ∨ Rows ty = 1 ∧ Cols ty ≤ 1))
  ∧ (Rows ty = 1 → 1 < Cols ty → IsMatrix ty = true ∧ IsVector ty = false)
  ∧ (Rows ty = 0 → IsMatrix ty = false ∧ IsVector ty = false).
Proof.
  unfold IsScalar, IsVector, IsMatrix, IsArray.
  destruct (N.leb_spec 1 (Rows ty)), (N.ltb_spec 1 (Cols ty)),
    (N.ltb_spec 1 (Rows ty)), (Z.eqb_spec (ArrayLength ty) 0),
    (IsNumeric ty); cbn; repeat split; try intros; try lia; try done;
    intuition (try lia; try done).
Qed.

(** X11.  [HasQualifier] of a union of masks holds exactly when it
    holds of both; it holds of the empty mask on every descriptor; and
    it holds of a mask once the mask has been or-ed into [Qualifiers]. *)
Theorem HasQualifier_of_a_union ty a b :
  HasQualifier ty (N.lor a b) = HasQualifier ty a && HasQualifier ty b
  ∧ HasQualifier ty 0 = true
  ∧ HasQualifier
      (mkType (BaseClass ty) (N.lor (Qualifiers ty) a) (Rows ty) (Cols ty)
         (ArrayLength ty) (Definition_ ty)) a = true.
Proof.
  split; [|split].
  - apply eq_true_iff_eq. rewrite andb_true_iff, !HasQualifier_bits. split.
    + intros Hab. split; intros i Hi Hq; apply Hab; try done;
        rewrite N.lor_spec, Hq; by rewrite ?orb_true_r.
    + intros [Ha Hb] i Hi Hq. rewrite N.lor_spec in Hq.
      apply orb_true_iff in Hq as [Hq|Hq]; auto.
  - unfold HasQualifier, to_unsigned. rewrite N.Div0.mod_0_l, N.land_0_r. done.
  - apply HasQualifier_bits. intros i _ Hq. cbn [Qualifiers].
    by rewrite N.lor_spec, Hq, orb_true_r.
Qed.

End TypeTables.

(** ** The tags of the nodes *)

Section Tags.
Context `{!Lexer.t}.

(** X12.  The tag of a node tells its struct: after construction, with
    or without the stamp of [make_node], no node has the tag [unknown],
    nodes of different structs have different tags, and the tag decides
    the family whose members the node carries. *)
Theorem tag_identifies_the_struct s s' stamp stamp' :
  id (header (fresh s stamp)) ≠ nodeid.unknown
  ∧ (id (header (fresh s stamp)) = id (header (fresh s' stamp')) → s = s')
  ∧ (id (header (fresh s stamp)) = id (header (fresh s' stamp')) →
       carries (fresh s stamp) = carries (fresh s' stamp')).
Proof.
  assert (∀ t st, id (header (fresh t st)) = shape.tag t) as Htag.
  { intros t [l|]; cbn [fresh]; [rewrite assign_location_header|];
      apply construct_id. }
  rewrite !Htag.
  assert (shape.tag s = shape.tag s' → s = s') as Hinj
    by (destruct s, s'; done).
  split; [by destruct s|]. split; [done|].
  intros <-%Hinj. destruct stamp, stamp'; cbn [fresh];
    by rewrite ?assign_location_carries.
Qed.

End Tags.

(** ** The pool in use *)

Section PoolUse.
Import memory_pool.
Context `{!Env}.
Implicit Types (mem cs : list cell) (p : page) (ty : T).

(** [place] changes the bytes of the new slot only. *)
Lemma place_effect ty size i pages p :
  pages !! i = Some p →
  offsetof_data + Npos (sizeof ty) ≤ size →
  cursor p + size ≤ N.of_nat (length (memory p)) →
  N.of_nat (length (memory p)) < 2 ^ 63 →
  ∃ m,
    place ty size i pages
    = Ok (Ptr i (cursor p + offsetof_data),
          {| _pages := <[i := {| cursor := cursor p + size; memory := m |}]> pages |})
    ∧ length m = length (memory p)
    ∧ take (N.to_nat (cursor p)) m = take (N.to_nat (cursor p)) (memory p)
    ∧ drop (N.to_nat (cursor p + size)) m
      = drop (N.to_nat (cursor p + size)) (memory p)
    ∧ load_object m (cursor p + offsetof_data) = Some (ctor ty).
Proof.
  intros Hp Hsize Hfit Hlen. destruct p as [c mem]. cbn [cursor memory] in *.
  unfold offsetof_data in *.
  destruct (split_buffer mem (N.to_nat c) (Pos.to_nat (sizeof ty)))
    as (A & B1 & B2 & B3 & C & -> & HA & HB1 & HB2 & HB3); [lia|].
  rewrite !length_app in Hfit, Hlen.
  eexists. split; [|split; [|split; [|split]]].
  - apply (place_at ty size i pages c A B1 B2 B3 C); try done; lia.
  - rewrite !length_app, !length_encode, length_object_cells. lia.
  - rewrite <- HA. by rewrite !take_app_length.
  - assert (∀ X1 X2 X3 : list cell,
              length X1 = 8%nat → length X2 = 8%nat →
              length X3 = Pos.to_nat (sizeof ty) →
              drop (N.to_nat (c + size)) (A ++ X1 ++ X2 ++ X3 ++ C)
              = drop (N.to_nat (c + size) - N.to_nat c - 16
                      - Pos.to_nat (sizeof ty)) C) as Hdrop.
    { intros X1 X2 X3 H1 H2 H3.
      rewrite !drop_app_ge by (rewrite ?length_app; lia).
      f_equal. lia. }
    rewrite !Hdrop; rewrite ?length_encode, ?length_object_cells; done.
  - rewrite !app_assoc. rewrite <- (app_assoc _ _ C).
    apply load_object_app. rewrite !length_app, !length_encode. lia.
Qed.


(** What one call of [add] does to a pool: it builds the slot at the
    cursor of the first page with room, or of a fresh page at the end. *)
Lemma add_effect ty pool :
  ok pool → footprint_exact ty < 2 ^ 63 →
  ∃ i p m pages',
    add ty pool = Ok (Ptr i (cursor p + offsetof_data), {| _pages := pages' |})
    ∧ let p' := {| cursor := cursor p + footprint ty; memory := m |} in
      ((_pages pool !! i = Some p
        ∧ cursor p + footprint ty < N.of_nat (length (memory p))
        ∧ (∀ j q, (j < i)%nat → _pages pool !! j = Some q →
                  N.of_nat (length (memory q)) ≤ cursor q + footprint ty)
        ∧ pages' = <[i := p']> (_pages pool))
       ∨ (i = length (_pages pool)
          ∧ p = page_ctor (N.max 4096 (footprint ty))
          ∧ Forall (λ q, N.of_nat (length (memory q)) ≤ cursor q + footprint ty)
              (_pages pool)
          ∧ pages' = _pages pool ++ [p']))
      ∧ page_ok p
      ∧ cursor p + footprint ty ≤ N.of_nat (length (memory p))
      ∧ length m = length (memory p)
      ∧ take (N.to_nat (cursor p)) m = take (N.to_nat (cursor p)) (memory p)
      ∧ load_object m (cursor p + offsetof_data) = Some (ctor ty).
Proof.
  intros Hok Hsmall.
  assert (footprint ty = footprint_exact ty) as Hfp
    by (apply footprint_small; rewrite pow63 in *; rewrite pow64; lia).
  pose proof (footprint_exact_ge ty) as Hge. rewrite <- Hfp in Hge, Hsmall.
  assert (∀ q, page_ok q →
            ¬ has_room (footprint ty) q →
            N.of_nat (length (memory q)) ≤ cursor q + footprint ty) as Hfull.
  { intros q Hq Hno. rewrite has_room_fits in Hno by done. lia. }
  unfold add.
  destruct (list_find (has_room (footprint ty)) (_pages pool))
    as [[i p]|] eqn:Hfind.
  - apply list_find_Some in Hfind as (Hp & Hroom & Hfirst).
    assert (page_ok p) as Hpok
      by (by eapply (Forall_lookup_1 page_ok (_pages pool))).
    apply has_room_fits in Hroom; [|done|done].
    destruct (place_effect ty (footprint ty) i (_pages pool) p)
      as (m & Hplace & Hm & Htake & _ & Hobj);
      [done|done|lia|by destruct Hpok|].
    eexists i, p, m, _. split; [exact Hplace|]. cbn zeta.
    split; [|split; [done|split; [lia|done]]].
    left. split; [done|]. split; [done|]. split; [|done].
    intros j q Hj Hq. apply Hfull; [|by eapply Hfirst].
    by eapply (Forall_lookup_1 page_ok (_pages pool)).
  - set (fresh := page_ctor (N.max 4096 (footprint ty))).
    assert (N.of_nat (length (memory fresh)) = N.max 4096 (footprint ty)) as Hlen
      by (unfold fresh, page_ctor; cbn [memory]; rewrite length_replicate; lia).
    assert (page_ok fresh) as Hfresh.
    { split; [unfold fresh; cbn; lia|]. rewrite Hlen. rewrite pow63 in *. lia. }
    destruct (place_effect ty (footprint ty) (length (_pages pool))
                (_pages pool ++ [fresh]) fresh)
      as (m & Hplace & Hm & Htake & _ & Hobj).
    { by apply list_lookup_middle. } { done. }
    { rewrite Hlen. cbn. lia. } { by destruct Hfresh. }
    eexists (length (_pages pool)), fresh, m, _. split; [exact Hplace|]. cbn zeta.
    split; [|split; [done|split; [rewrite Hlen; cbn; lia|done]]].
    right. split; [done|]. split; [done|]. split.
    + apply list_find_None in Hfind. apply Forall_forall. intros q Hq.
      apply Hfull.
      * by apply (proj1 (Forall_forall _ _) Hok).
      * by apply (proj1 (Forall_forall _ _) Hfind).
    + replace (length (_pages pool)) with (length (_pages pool) + 0)%nat at 1 by lia.
      by rewrite insert_app_r.
Qed.


Lemma footprint_above_header ty :
  footprint_exact ty < 2 ^ 63 →
  footprint ty = footprint_exact ty
  ∧ offsetof_data + Npos (sizeof ty) ≤ footprint ty.
Proof.
  intros Hsmall.
  assert (footprint ty = footprint_exact ty) as Hfp
    by (apply footprint_small; rewrite pow63 in *; rewrite pow64; lia).
  pose proof (footprint_exact_ge ty). split; [done|]. lia.
Qed.

(** X2.  On a pool that is [ok], [add<T>] returns and keeps the pool
    [ok]; the address it returns holds the object [T()], and none of
    the [sizeof(T)] addresses of the object was in use before, while
    all of them are in use afterwards. *)
Theorem add_returns_a_fresh_object ty pool :
  ok pool → footprint_exact ty < 2 ^ 63 →
  ∃ pg off pool',
    add ty pool = Ok (Ptr pg off, pool')
    ∧ ok pool'
    ∧ object_at pool' (Ptr pg off) = Some (ctor ty)
    ∧ ∀ k, k < Npos (sizeof ty) →
        ¬ live pool (Ptr pg (off + k)) ∧ live pool' (Ptr pg (off + k)).
Proof.
  intros Hok Hsmall.
  destruct (footprint_above_header ty Hsmall) as [_ Habove].
  destruct (add_effect ty pool Hok Hsmall)
    as (i & p & m & pages' & Hadd & Hcase & [Hc Hlen] & Hfit & Hm & _ & Hobj).
  exists i, (cursor p + offsetof_data), {| _pages := pages' |}.
  split; [done|]. unfold offsetof_data in *.
  destruct Hcase as [(Hp & _ & _ & ->)|(-> & _ & _ & ->)]; cbn [ok live object_at _pages].
  - pose proof (lookup_lt_Some _ _ _ Hp) as Hi.
    rewrite list_lookup_insert_eq by done. cbn [memory cursor].
    split; [apply Forall_insert; [done|split; cbn [cursor memory]; lia]|].
    split; [done|]. intros k Hk. split.
    + intros (q & Hq & Hlt). rewrite Hp in Hq. injection Hq as <-. lia.
    + eexists. split; [done|]. cbn [cursor]. lia.
  - rewrite list_lookup_middle by done. cbn [memory cursor].
    split.
    { apply Forall_app. split; [done|]. apply Forall_singleton.
      split; cbn [cursor memory]; lia. }
    split; [done|]. intros k Hk. split.
    + intros (q & Hq & _). apply lookup_lt_Some in Hq. lia.
    + eexists. split; [done|]. cbn [cursor]. lia.
Qed.

Lemma grown_pages pages pages' i p c m :
  (pages !! i = Some p ∧ pages' = <[i := {| cursor := c; memory := m |}]> pages)
  ∨ (i = length pages ∧ pages' = pages ++ [{| cursor := c; memory := m |}]) →
  cursor p ≤ c →
  length m = length (memory p) →
  take (N.to_nat (cursor p)) m = take (N.to_nat (cursor p)) (memory p) →
  kept pages pages'
  ∧ (length pages ≤ length pages' ≤ S (length pages))%nat.
Proof.
  intros Hcase Hc Hm Htake. split.
  - intros pg q Hq.
    destruct Hcase as [(Hp & ->)|(-> & ->)].
    + destruct (decide (pg = i)) as [->|Hne].
      * rewrite Hp in Hq. injection Hq as <-.
        rewrite list_lookup_insert_eq by (by eapply lookup_lt_Some).
        eexists. split; [done|]. by cbn [cursor memory].
      * rewrite list_lookup_insert_ne by done. by exists q.
    + rewrite lookup_app_l by (by eapply lookup_lt_Some). by exists q.
  - destruct Hcase as [(_ & ->)|(_ & ->)].
    + rewrite length_insert. lia.
    + rewrite length_app. cbn [length]. lia.
Qed.

Lemma kept_objects pool pool' q :
  kept (_pages pool) (_pages pool') →
  live pool q →
  live pool' q ∧ object_at pool' q = object_at pool q.
Proof.
  intros Hkept. destruct q as [|pg off]; [done|]. cbn [live object_at].
  intros (p & Hp & Hoff).
  destruct (Hkept pg p Hp) as (p' & Hp' & Hlen' & Hcur & Htake').
  rewrite Hp, Hp'. split; [exists p'; split; [done|lia]|].
  unfold load_object.
  assert (memory p' !! N.to_nat off = memory p !! N.to_nat off) as ->; [|done].
  rewrite <- (lookup_take_lt (memory p') (N.to_nat (cursor p))) by lia.
  rewrite <- (lookup_take_lt (memory p) (N.to_nat (cursor p))) by lia.
  by rewrite Htake'.
Qed.

Lemma kept_refl pages : kept pages pages.
Proof. intros pg p Hp. by exists p. Qed.

Lemma kept_trans pages1 pages2 pages3 :
  kept pages1 pages2 → kept pages2 pages3 → kept pages1 pages3.
Proof.
  intros H12 H23 pg p1 Hp1.
  destruct (H12 pg p1 Hp1) as (p2 & Hp2 & Hlen2 & Hc2 & Htake2).
  destruct (H23 pg p2 Hp2) as (p3 & Hp3 & Hlen3 & Hc3 & Htake3).
  exists p3. split; [done|]. split; [congruence|]. split; [lia|].
  rewrite <- Htake2.
  replace (N.to_nat (cursor p1))
    with (N.to_nat (cursor p1) `min` N.to_nat (cursor p2))%nat by lia.
  by rewrite <- !take_take, Htake3.
Qed.

(** X3.  [add<T>] leaves what is in use alone: no page is dropped or
    moved and at most one is added, no buffer changes its length, no
    cursor moves back, the bytes below the old cursors stay as they
    are; so every address in use stays in use and keeps its object. *)
Theorem add_keeps_what_is_in_use ty pool ptr pool' :
  ok pool → footprint_exact ty < 2 ^ 63 →
  add ty pool = Ok (ptr, pool') →
  (length (_pages pool) ≤ length (_pages pool') ≤ S (length (_pages pool)))%nat
  ∧ (∀ pg p, _pages pool !! pg = Some p →
       ∃ p', _pages pool' !! pg = Some p'
             ∧ length (memory p') = length (memory p)
             ∧ cursor p ≤ cursor p'
             ∧ take (N.to_nat (cursor p)) (memory p')
               = take (N.to_nat (cursor p)) (memory p))
  ∧ (∀ q, live pool q → live pool' q ∧ object_at pool' q = object_at pool q).
Proof.
  intros Hok Hsmall Hadd.
  destruct (add_effect ty pool Hok Hsmall)
    as (i & p & m & pages' & Hadd' & Hcase & _ & _ & Hm & Htake & _).
  rewrite Hadd in Hadd'. injection Hadd' as -> ->. cbn [_pages].
  destruct (grown_pages (_pages pool) pages' i p (cursor p + footprint ty) m)
    as [Hkept Hlen]; [|lia|done|done|].
  { destruct Hcase as [(? & _ & _ & ?)|(? & _ & _ & ?)]; [by left|by right]. }
  split; [done|]. split; [done|]. intros q. by apply kept_objects.
Qed.

(** X4.  [add<T>] is first fit with a strict bound: it builds the slot
    in the first page that has more room than the slot needs, at that
    page's cursor; the number of pages stays, and behind the slot at
    least one byte of the page stays unused. *)
Theorem add_takes_the_first_page_with_room ty pool i p :
  ok pool → footprint_exact ty < 2 ^ 63 →
  _pages pool !! i = Some p →
  footprint ty < room p →
  (∀ j q, (j < i)%nat → _pages pool !! j = Some q → room q ≤ footprint ty) →
  ∃ m,
    add ty pool
    = Ok (Ptr i (cursor p + offsetof_data),
          {| _pages := <[i := {| cursor := cursor p + footprint ty;
                                 memory := m |}]> (_pages pool) |})
    ∧ length m = length (memory p)
    ∧ cursor p + footprint ty < N.of_nat (length m).
Proof.
  intros Hok Hsmall Hp Hroom Hbefore.
  destruct (add_effect ty pool Hok Hsmall)
    as (i' & p' & m & pages' & Hadd & Hcase & _ & _ & Hm & _).
  unfold room in Hroom.
  destruct Hcase as [(Hp' & Hfit & Hfirst & ->)|(_ & _ & Hfull & _)].
  - destruct (lt_eq_lt_dec i i') as [[Hlt| <-]|Hgt].
    + specialize (Hfirst i p Hlt Hp). lia.
    + rewrite Hp in Hp'. injection Hp' as <-. exists m.
      split; [done|]. split; [done|]. rewrite Hm. lia.
    + specialize (Hbefore i' p' Hgt Hp'). unfold room in Hbefore. lia.
  - pose proof (proj1 (Forall_lookup _ _) Hfull i p Hp) as Hle.
    cbn beta in Hle. lia.
Qed.

(** X5.  [add<T>] appends a page exactly when no page has more room
    than the slot needs; a page with exactly as many bytes left as the
    slot needs is passed over. *)
Theorem add_appends_a_page_iff_no_page_has_room ty pool ptr pool' :
  ok pool → footprint_exact ty < 2 ^ 63 →
  add ty pool = Ok (ptr, pool') →
  length (_pages pool') = S (length (_pages pool))
  ↔ Forall (λ p, room p ≤ footprint ty) (_pages pool).
Proof.
  intros Hok Hsmall Hadd.
  destruct (add_effect ty pool Hok Hsmall)
    as (i & p & m & pages' & Hadd' & Hcase & _).
  rewrite Hadd in Hadd'. injection Hadd' as -> ->. cbn [_pages].
  destruct Hcase as [(Hp & Hfit & _ & ->)|(_ & _ & Hfull & ->)].
  - rewrite length_insert. split; [lia|]. intros Hall.
    pose proof (proj1 (Forall_lookup _ _) Hall i p Hp) as Hle.
    cbn beta in Hle. unfold room in Hle. lia.
  - rewrite length_app. cbn [length]. split; [|lia]. intros _.
    eapply Forall_impl; [exact Hfull|]. intros q Hq. cbn beta in Hq. unfold room. lia.
Qed.


(** The addresses of the objects of a page: whole words from the start
    of the page, with the object inside the slots. *)
Lemma page_objects_aligned pg slots : ∀ off (a : T * pointer),
  Forall (λ s : slot, regular s.1) slots →
  off `mod` 8 = 0 →
  a ∈ page_objects pg off slots →
  ∃ o, a.2 = Ptr pg o ∧ o `mod` 8 = 0
       ∧ off + offsetof_data ≤ o
       ∧ o + Npos (sizeof a.1) ≤ off + extent slots.
Proof.
  induction slots as [|s slots IH]; intros off a Hreg Hoff; cbn [page_objects].
  - by intros ?%elem_of_nil.
  - apply Forall_cons in Hreg as [Hs Hreg].
    destruct (regular_footprint _ Hs) as (_ & Hge & _ & Hmod).
    rewrite extent_cons by done. unfold offsetof_data in *.
    intros [->|Ha]%elem_of_cons.
    + eexists. split; [done|]. cbn [fst snd]. split; [|lia].
      rewrite N.Div0.add_mod, Hoff. done.
    + destruct (IH (off + footprint s.1) a Hreg) as (o & Ho & Hm & Hle & Hin);
        [by rewrite N.Div0.add_mod, Hoff, Hmod|done|].
      exists o. split; [done|]. split; [done|]. lia.
Qed.

Lemma objects_from_aligned layout : ∀ pg pages (a : T * pointer),
  Forall2 holds layout pages →
  a ∈ objects_from pg layout →
  ∃ pg' o, a.2 = Ptr pg' o ∧ o `mod` 8 = 0
           ∧ offsetof_data ≤ o ∧ o + Npos (sizeof a.1) < 4096.
Proof.
  induction layout as [|slots layout IH]; intros pg pages a Hl;
    cbn [objects_from].
  - by intros ?%elem_of_nil.
  - apply Forall2_cons_inv_l in Hl as (p & pages' & Hp & Hl & ->).
    intros [Ha|Ha]%elem_of_app; [|by eapply IH].
    destruct Hp as (_ & Hreg & Hc & Hlt & _).
    destruct (page_objects_aligned pg slots 0 a Hreg eq_refl Ha)
      as (o & Ho & Hm & Hle & Hin).
    exists pg, o. split; [done|]. split; [done|]. split; [lia|]. lia.
Qed.

(** X13.  The objects that [add] makes in an empty pool, for types
    whose slots are whole words and smaller than a page, lie at whole
    words of their page, behind the two words of the slot header, and
    end before the page of 4096 bytes does. *)
Theorem add_returns_aligned_addresses tys :
  Forall regular tys →
  ∃ ptrs pool,
    add_all tys empty = Ok (ptrs, pool)
    ∧ length ptrs = length tys
    ∧ Forall (λ a : T * pointer,
         ∃ pg off, a.2 = Ptr pg off ∧ off `mod` 8 = 0
                   ∧ offsetof_data ≤ off ∧ off + Npos (sizeof a.1) < 4096)
        (zip tys ptrs).
Proof.
  intros Hreg.
  destruct (add_all_layout tys empty [] (Forall2_nil_2 _ _ holds) Hreg)
    as (ptrs & pool & layout & Hall & Hl & Hlen & Hperm).
  exists ptrs, pool. split; [done|]. split; [done|].
  apply Forall_forall. intros a Hin.
  cbn [objects_from app] in Hperm. rewrite <- Hperm in Hin.
  by apply (objects_from_aligned layout 0 (_pages pool) a Hl).
Qed.

(** *** Writing to an object in a slot *)

Lemma slot_cells_parts (ty : T) :
  ∃ hd tl, length hd = 16%nat
           ∧ ∀ obj, slot_cells (ty, obj) = hd ++ [ObjectStart obj] ++ tl.
Proof.
  eexists (encode 8 (footprint ty) ++ encode 8 (dtor ty)), _.
  split; [by rewrite length_app, !length_encode|].
  intros obj. unfold slot_cells, object_cells. cbn [fst snd].
  rewrite <- !app_assoc. reflexivity.
Qed.

(** A store to the first cell of an object of a page changes the
    object of its slot and nothing else. *)
Lemma restamp_slots pg (f : object → object) slots :
  ∀ pre rest (a : T * pointer),
  Forall (λ s : slot, regular s.1) slots →
  a ∈ page_objects pg (N.of_nat (length pre)) slots →
  ∃ o obj slots',
    a.2 = Ptr pg o
    ∧ load_object (pre ++ cells slots ++ rest) o = Some obj
    ∧ store (pre ++ cells slots ++ rest) o [ObjectStart (f obj)]
      = Some (pre ++ cells slots' ++ rest)
    ∧ slots'.*1 = slots.*1
    ∧ length (cells slots') = length (cells slots).
Proof.
  induction slots as [|[ty obj] slots IH]; intros pre rest a Hreg;
    cbn [page_objects].
  - by intros ?%elem_of_nil.
  - apply Forall_cons in Hreg as [Hs Hreg]. cbn [fst] in Hs.
    intros [->|Ha]%elem_of_cons.
    + exists (N.of_nat (length pre) + offsetof_data), obj, ((ty, f obj) :: slots).
      cbn [fst snd]. split; [done|].
      destruct (slot_cells_parts ty) as (hd & tl & Hhd & Hparts).
      rewrite !cells_cons, !Hparts, <- !app_assoc, !(app_assoc pre hd).
      assert (N.of_nat (length pre) + offsetof_data
              = N.of_nat (length (pre ++ hd))) as Hoff
        by (rewrite length_app, Hhd; unfold offsetof_data; lia).
      split; [|split; [|split]].
      * unfold load_object. rewrite Hoff, Nat2N.id.
        by rewrite lookup_app_r, Nat.sub_diag by lia.
      * rewrite (cells_cons (ty, f obj)), Hparts, <- !app_assoc, !(app_assoc pre hd).
        by apply store_app.
      * done.
      * rewrite (cells_cons (ty, f obj)), Hparts, !length_app. cbn [length]. lia.
    + destruct (IH (pre ++ slot_cells (ty, obj)) rest a Hreg)
        as (o & obj' & slots' & Ho & Hload & Hstore & Htys & Hlen).
      { rewrite length_app, Nat2N.inj_add, (length_slot_cells (ty, obj)) by done.
        done. }
      exists o, obj', ((ty, obj) :: slots'). split; [done|].
      rewrite !cells_cons.
      change (cells ((ty, obj) :: slots')) with (slot_cells (ty, obj) ++ cells slots').
      rewrite <- !app_assoc. rewrite <- !app_assoc in Hload, Hstore.
      split; [done|]. split; [by rewrite Hstore, <- app_assoc|].
      split; [by cbn; rewrite Htys|].
      by rewrite !length_app, Hlen.
Qed.

Lemma page_objects_types pg slots : ∀ (slots' : list slot) off,
  slots'.*1 = slots.*1 →
  page_objects pg off slots' = page_objects pg off slots.
Proof.
  induction slots as [|s slots IH]; intros [|s' slots'] off Htys; try done.
  cbn in Htys. injection Htys as Hs Htys. cbn [page_objects].
  by rewrite Hs, (IH slots' _ Htys).
Qed.

Lemma restamp_holds pg (f : object → object) slots p (a : T * pointer) :
  holds slots p →
  a ∈ page_objects pg 0 slots →
  ∃ o obj m slots',
    a.2 = Ptr pg o
    ∧ load_object (memory p) o = Some obj
    ∧ store (memory p) o [ObjectStart (f obj)] = Some m
    ∧ holds slots' {| cursor := cursor p; memory := m |}
    ∧ page_objects pg 0 slots' = page_objects pg 0 slots.
Proof.
  intros (Hne & Hreg & Hc & Hlt & Hmem) Ha.
  destruct (restamp_slots pg f slots [] (replicate (4096 - length (cells slots)) (Byte 0))
              a Hreg Ha) as (o & obj & slots' & Ho & Hload & Hstore & Htys & Hlen).
  cbn [app] in Hload, Hstore. rewrite <- Hmem in Hload, Hstore.
  exists o, obj, (cells slots' ++ replicate (4096 - length (cells slots)) (Byte 0)),
    slots'.
  split; [done|]. split; [done|]. split; [done|].
  split; [|by apply page_objects_types].
  split; [by destruct slots, slots'|].
  split.
  { apply (Forall_fmap fst regular) in Hreg.
    apply (proj1 (Forall_fmap fst regular slots')). by rewrite Htys. }
  cbn [cursor memory]. unfold extent in *. rewrite Hlen. done.
Qed.

Lemma restamp_layout (f : object → object) layout :
  ∀ pg0 pages (a : T * pointer),
  Forall2 holds layout pages →
  a ∈ objects_from pg0 layout →
  ∃ k o p obj m layout',
    a.2 = Ptr (pg0 + k) o
    ∧ pages !! k = Some p
    ∧ load_object (memory p) o = Some obj
    ∧ store (memory p) o [ObjectStart (f obj)] = Some m
    ∧ Forall2 holds layout' (<[k := {| cursor := cursor p; memory := m |}]> pages)
    ∧ objects_from pg0 layout' = objects_from pg0 layout.
Proof.
  induction layout as [|slots layout IH]; intros pg0 pages a Hl;
    cbn [objects_from].
  - by intros ?%elem_of_nil.
  - apply Forall2_cons_inv_l in Hl as (p & pages' & Hp & Hl & ->).
    intros [Ha|Ha]%elem_of_app.
    + destruct (restamp_holds pg0 f slots p a Hp Ha)
        as (o & obj & m & slots' & Ho & Hload & Hstore & Hholds & Hobjs).
      exists 0%nat, o, p, obj, m, (slots' :: layout).
      rewrite Nat.add_0_r. split; [done|]. split; [done|].
      split; [done|]. split; [done|]. cbn [insert list_insert objects_from].
      split; [by apply Forall2_cons|]. by rewrite Hobjs.
    + destruct (IH (S pg0) pages' a Hl Ha)
        as (k & o & q & obj & m & layout' & Ho & Hq & Hload & Hstore & Hholds & Hobjs).
      exists (S k), o, q, obj, m, (slots :: layout').
      rewrite Nat.add_succ_r. split; [done|]. split; [done|].
      split; [done|]. split; [done|]. cbn [insert list_insert objects_from].
      split; [by apply Forall2_cons|]. by rewrite Hobjs.
Qed.

End PoolUse.

(** ** The tree in use *)

Section TreeUse.
Context `{!Lexer.t, !nodetree.ABI}.
Import memory_pool.

(** What one call of [make_node] does to the pool of a tree. *)
Lemma make_node_effect T l tree :
  ok (nodetree._pool tree) → footprint_exact T < 2 ^ 63 →
  ∃ i p m pages',
    nodetree.make_node T l tree
    = Ok (Ptr i (cursor p + offsetof_data),
          {| nodetree.structs := nodetree.structs tree;
             nodetree.uniforms := nodetree.uniforms tree;
             nodetree.functions := nodetree.functions tree;
             nodetree.techniques := nodetree.techniques tree;
             nodetree._pool := {| _pages := pages' |} |})
    ∧ let p' := {| cursor := cursor p + footprint T; memory := m |} in
      ((_pages (nodetree._pool tree) !! i = Some p
        ∧ pages' = <[i := p']> (_pages (nodetree._pool tree)))
       ∨ (i = length (_pages (nodetree._pool tree))
          ∧ cursor p = 0
          ∧ pages' = _pages (nodetree._pool tree) ++ [p']))
      ∧ page_ok p'
      ∧ length m = length (memory p)
      ∧ take (N.to_nat (cursor p)) m = take (N.to_nat (cursor p)) (memory p)
      ∧ load_object m (cursor p + offsetof_data)
        = Some (assign_location l (construct T)).
Proof.
  intros Hok Hsmall.
  destruct (footprint_above_header T Hsmall) as [_ Habove].
  destruct (add_effect T (nodetree._pool tree) Hok Hsmall)
    as (i & p & m & pages0 & Hadd & Hcase & [Hc Hlen] & Hfit & Hm & Htake & Hobj).
  cbn zeta in Hcase. unfold offsetof_data in *.
  set (p0 := {| cursor := cursor p + footprint T; memory := m |}) in *.
  assert (pages0 !! i = Some p0) as Hp0.
  { destruct Hcase as [(Hp & _ & _ & ->)|(-> & _ & _ & ->)].
    - apply list_lookup_insert_eq. by eapply lookup_lt_Some.
    - by apply list_lookup_middle. }
  unfold nodetree.make_node. rewrite Hadd. cbn [mbind result_bind].
  unfold nodetree.set_location. cbn [_pages]. rewrite Hp0.
  cbn [defined mbind result_bind]. subst p0. cbn [memory cursor].
  rewrite Hobj. cbn [defined mbind result_bind].
  unfold store. rewrite decide_True by (cbn [length]; lia).
  cbn [defined mbind result_bind].
  eexists i, p, _, _. split; [reflexivity|]. cbn zeta.
  assert (∀ x : cell,
            length (take (N.to_nat (cursor p + 16)) m ++ [x]
                    ++ drop (N.to_nat (cursor p + 16) + length [x]) m)
            = length (memory p)) as Hsame.
  { intros x. rewrite !length_app, length_take, length_drop. cbn [length]. lia. }
  split; [|split; [|split; [|split]]].
  - destruct Hcase as [(Hp & _ & _ & ->)|(-> & -> & _ & ->)].
    + left. split; [done|]. by rewrite list_insert_insert_eq.
    + right. split; [done|]. split; [done|].
      replace (length (_pages (nodetree._pool tree)))
        with (length (_pages (nodetree._pool tree)) + 0)%nat at 1 by lia.
      by rewrite insert_app_r.
  - split; cbn [cursor memory]; rewrite Hsame; lia.
  - apply Hsame.
  - rewrite take_app_le by (rewrite length_take; lia).
    rewrite take_take, <- Htake. f_equal. lia.
  - unfold load_object.
    rewrite lookup_app_r by (rewrite length_take; lia).
    by rewrite length_take_le, Nat.sub_diag by lia.
Qed.

(** One call of [make_node], seen from the addresses in use. *)
Lemma make_node_step T l tree :
  ok (nodetree._pool tree) → footprint_exact T < 2 ^ 63 →
  ∃ node pool',
    nodetree.make_node T l tree
    = Ok (node,
          {| nodetree.structs := nodetree.structs tree;
             nodetree.uniforms := nodetree.uniforms tree;
             nodetree.functions := nodetree.functions tree;
             nodetree.techniques := nodetree.techniques tree;
             nodetree._pool := pool' |})
    ∧ ok pool'
    ∧ kept (_pages (nodetree._pool tree)) (_pages pool')
    ∧ ¬ live (nodetree._pool tree) node
    ∧ live pool' node
    ∧ nodetree.deref pool' node = Some (fresh T (Some l)).
Proof.
  intros Hok Hsmall.
  destruct (footprint_above_header T Hsmall) as [_ Habove].
  destruct (make_node_effect T l tree Hok Hsmall)
    as (i & p & m & pages' & Hmake & Hcase & Hpok & Hm & Htake & Hobj).
  cbn zeta in Hcase. unfold offsetof_data in *.
  eexists _, _. split; [exact Hmake|].
  assert (pages' !! i = Some {| cursor := cursor p + footprint T; memory := m |})
    as Hp'.
  { destruct Hcase as [(Hp & ->)|(-> & _ & ->)].
    - apply list_lookup_insert_eq. by eapply lookup_lt_Some.
    - by apply list_lookup_middle. }
  split; [|split; [|split; [|split]]].
  - cbn [ok _pages]. destruct Hcase as [(Hp & ->)|(-> & _ & ->)].
    + by apply Forall_insert.
    + apply Forall_app. split; [done|]. by apply Forall_singleton.
  - eapply (grown_pages _ pages' i p (cursor p + footprint T) m);
      [|lia|done|done].
    destruct Hcase as [(? & ?)|(? & _ & ?)]; [by left|by right].
  - cbn [live]. intros (q & Hq & Hlt).
    destruct Hcase as [(Hp & _)|(-> & _)].
    + rewrite Hp in Hq. injection Hq as <-. lia.
    + apply lookup_lt_Some in Hq. lia.
  - cbn [live _pages]. eexists. split; [exact Hp'|]. cbn [cursor]. lia.
  - cbn [nodetree.deref _pages fresh]. rewrite Hp'. cbn [memory]. exact Hobj.
Qed.

(** X8.  [make_node<T>] gives the node an address that no earlier node
    has, and leaves the earlier nodes where they are and as they are;
    it puts the node into none of the four collections. *)
Theorem make_node_keeps_the_nodes T l tree :
  ok (nodetree._pool tree) → footprint_exact T < 2 ^ 63 →
  ∃ node tree',
    nodetree.make_node T l tree = Ok (node, tree')
    ∧ ¬ live (nodetree._pool tree) node
    ∧ live (nodetree._pool tree') node
    ∧ (∀ q, live (nodetree._pool tree) q →
         live (nodetree._pool tree') q
         ∧ nodetree.deref (nodetree._pool tree') q
           = nodetree.deref (nodetree._pool tree) q)
    ∧ nodetree.structs tree' = nodetree.structs tree
    ∧ nodetree.uniforms tree' = nodetree.uniforms tree
    ∧ nodetree.functions tree' = nodetree.functions tree
    ∧ nodetree.techniques tree' = nodetree.techniques tree.
Proof.
  intros Hok Hsmall.
  destruct (make_node_step T l tree Hok Hsmall)
    as (node & pool' & Hmake & _ & Hkept & Hnew & Hlive & _).
  eexists _, _. split; [exact Hmake|]. cbn [nodetree._pool nodetree.structs
    nodetree.uniforms nodetree.functions nodetree.techniques].
  split; [done|]. split; [done|]. split; [|done].
  intros q Hq. by apply (kept_objects (nodetree._pool tree) pool').
Qed.

(** Calls of [make_node] one after the other. *)
Lemma make_nodes_effect requests : ∀ tree,
  ok (nodetree._pool tree) →
  Forall (λ r, footprint_exact r.1 < 2 ^ 63) requests →
  ∃ nodes tree',
    nodetree.make_nodes requests tree = Ok (nodes, tree')
    ∧ ok (nodetree._pool tree')
    ∧ kept (_pages (nodetree._pool tree)) (_pages (nodetree._pool tree'))
    ∧ NoDup nodes
    ∧ Forall (λ node, ¬ live (nodetree._pool tree) node
                      ∧ live (nodetree._pool tree') node) nodes
    ∧ Forall2 (λ r node, nodetree.deref (nodetree._pool tree') node
                         = Some (fresh r.1 (Some r.2))) requests nodes.
Proof.
  induction requests as [|[T l] requests IH]; intros tree Hok Hsmall.
  - exists [], tree. cbn [nodetree.make_nodes]. split; [done|].
    split; [done|]. split; [apply kept_refl|]. split; [apply NoDup_nil_2|].
    by split.
  - apply Forall_cons in Hsmall as [HT Hsmall]. cbn [fst] in HT.
    destruct (make_node_step T l tree Hok HT)
      as (node & pool1 & Hmake & Hok1 & Hkept1 & Hnew & Hlive & Hobj).
    set (tree1 := {| nodetree.structs := nodetree.structs tree;
                     nodetree.uniforms := nodetree.uniforms tree;
                     nodetree.functions := nodetree.functions tree;
                     nodetree.techniques := nodetree.techniques tree;
                     nodetree._pool := pool1 |}) in *.
    destruct (IH tree1 Hok1 Hsmall)
      as (nodes & tree2 & Hrest & Hok2 & Hkept2 & Hnodup & Hnodes & Hobjs).
    cbn [nodetree._pool tree1] in Hkept2, Hnodes.
    exists (node :: nodes), tree2. cbn [nodetree.make_nodes].
    rewrite Hmake. cbn [mbind result_bind]. rewrite Hrest.
    cbn [mbind result_bind].
    destruct (kept_objects pool1 (nodetree._pool tree2) node Hkept2 Hlive)
      as [Hlive2 Hsame].
    split; [done|]. split; [done|].
    split; [by eapply kept_trans|]. split; [|split].
    + apply NoDup_cons. split; [|done]. intros Hin.
      by destruct (proj1 (Forall_forall _ _) Hnodes node Hin).
    + apply Forall_cons. split; [done|].
      eapply Forall_impl; [exact Hnodes|]. intros q [Hq1 Hq2]. split; [|done].
      intros Hq. apply Hq1.
      by apply (kept_objects (nodetree._pool tree) pool1 q Hkept1).
    + apply Forall2_cons. split; [|done]. cbn [fst snd].
      rewrite <- Hobj. exact Hsame.
Qed.

(** X15.  After calls of [make_node] one after the other, on a tree
    whose pool is [ok], the nodes returned have addresses that differ
    from one another, and each of them still is the object its call
    built: [T()] with the location of the call, whatever was made
    after it. *)
Theorem make_nodes_keep_their_nodes requests tree :
  ok (nodetree._pool tree) →
  Forall (λ r, footprint_exact r.1 < 2 ^ 63) requests →
  ∃ nodes tree',
    nodetree.make_nodes requests tree = Ok (nodes, tree')
    ∧ ok (nodetree._pool tree')
    ∧ NoDup nodes
    ∧ Forall2 (λ r node,
         ∃ o, nodetree.deref (nodetree._pool tree') node = Some o
              ∧ o = assign_location r.2 (construct r.1)
              ∧ id (header o) = shape.tag r.1
              ∧ location (header o) = r.2) requests nodes.
Proof.
  intros Hok Hsmall.
  destruct (make_nodes_effect requests tree Hok Hsmall)
    as (nodes & tree' & Hmake & Hok' & _ & Hnodup & _ & Hobjs).
  exists nodes, tree'. split; [done|]. split; [done|]. split; [done|].
  eapply Forall2_impl; [exact Hobjs|]. intros [T l] node Hnode.
  cbn [fst snd fresh] in *. eexists. split; [exact Hnode|]. split; [done|].
  rewrite assign_location_header. cbn [id location].
  split; [apply construct_id|done].
Qed.


(** [node->location = location] on a node of a page that holds slots. *)
Lemma set_location_holds pool layout T ptr l :
  Forall2 holds layout (_pages pool) →
  (T, ptr) ∈ objects_from 0 layout →
  ∃ pool' layout',
    nodetree.set_location pool ptr l = Ok pool'
    ∧ Forall2 holds layout' (_pages pool')
    ∧ objects_from 0 layout' = objects_from 0 layout.
Proof.
  intros Hl Hin.
  destruct (restamp_layout
              (assign_location l : @object nodetree.env → @object nodetree.env)
              layout 0 (_pages pool) (T, ptr) Hl Hin)
    as (k & o & p & obj & m & layout' & Ho & Hp & Hload & Hstore & Hholds & Hobjs).
  cbn [snd] in Ho. rewrite Nat.add_0_l in Ho. subst ptr.
  eexists _, layout'. unfold nodetree.set_location.
  rewrite Hp. cbn [defined mbind result_bind].
  rewrite Hload. cbn [defined mbind result_bind].
  rewrite Hstore. cbn [defined mbind result_bind].
  split; [reflexivity|]. by split.
Qed.

Lemma make_node_holds T l tree layout :
  Forall2 holds layout (_pages (nodetree._pool tree)) → regular T →
  ∃ node tree' layout',
    nodetree.make_node T l tree = Ok (node, tree')
    ∧ Forall2 holds layout' (_pages (nodetree._pool tree'))
    ∧ objects_from 0 layout' ≡ₚ objects_from 0 layout ++ [(T, node)].
Proof.
  intros Hl Hreg.
  destruct (add_holds T (nodetree._pool tree) layout Hl Hreg)
    as (node & pool1 & layout1 & Hadd & Hl1 & Hperm).
  destruct (set_location_holds pool1 layout1 T node l Hl1)
    as (pool2 & layout2 & Hset & Hl2 & Hobjs).
  { rewrite Hperm. apply elem_of_app. right. by apply list_elem_of_singleton. }
  eexists node, _, layout2. unfold nodetree.make_node.
  rewrite Hadd. cbn [mbind result_bind]. rewrite Hset. cbn [mbind result_bind].
  split; [reflexivity|]. cbn [nodetree._pool]. split; [done|].
  by rewrite Hobjs.
Qed.

Lemma make_nodes_layout requests : ∀ tree layout,
  Forall2 holds layout (_pages (nodetree._pool tree)) →
  Forall (λ r, regular r.1) requests →
  ∃ nodes tree' layout',
    nodetree.make_nodes requests tree = Ok (nodes, tree')
    ∧ Forall2 holds layout' (_pages (nodetree._pool tree'))
    ∧ length nodes = length requests
    ∧ objects_from 0 layout' ≡ₚ objects_from 0 layout ++ zip requests.*1 nodes.
Proof.
  induction requests as [|[T l] requests IH]; intros tree layout Hl Hreg.
  - exists [], tree, layout. by rewrite app_nil_r.
  - apply Forall_cons in Hreg as [HT Hreg]. cbn [fst] in HT.
    destruct (make_node_holds T l tree layout Hl HT)
      as (node & tree1 & layout1 & Hmake & Hl1 & Hperm1).
    destruct (IH tree1 layout1 Hl1 Hreg)
      as (nodes & tree2 & layout2 & Hall & Hl2 & Hlen & Hperm2).
    exists (node :: nodes), tree2, layout2. cbn [nodetree.make_nodes].
    rewrite Hmake. cbn [mbind result_bind]. rewrite Hall.
    cbn [mbind result_bind].
    split; [done|]. split; [done|]. split; [by cbn; rewrite Hlen|].
    rewrite Hperm2, Hperm1, <- app_assoc. done.
Qed.

(** X14.  A tree built by calls of [make_node], for structs whose slots
    are whole words and smaller than a page, destroys each of its nodes
    once when it is destroyed: [~nodetree()] returns, and its calls are,
    up to their order, one call of the destructor of each struct on the
    address [make_node] returned for it, the addresses being different
    from one another. *)
Theorem tree_destroys_each_node_once requests :
  Forall (λ r, regular r.1) requests →
  ∃ nodes tree pool' calls,
    nodetree.make_nodes requests nodetree.empty = Ok (nodes, tree)
    ∧ nodetree.destructor tree = Returned pool' calls
    ∧ length nodes = length requests
    ∧ NoDup nodes
    ∧ calls ≡ₚ destroys <$> zip requests.*1 nodes.
Proof.
  intros Hreg.
  destruct (make_nodes_layout requests nodetree.empty []
              (Forall2_nil_2 _ _ holds) Hreg)
    as (nodes & tree & layout & Hall & Hl & Hlen & Hperm).
  destruct (clear_pages_layout layout (_pages (nodetree._pool tree)) 0 [] [] Hl)
    as (pool' & Hclear).
  cbn [objects_from app] in *.
  exists nodes, tree, pool', (destroys <$> objects_from 0 layout).
  split; [done|]. split; [done|]. split; [done|].
  assert ((objects_from 0 layout).*2 ≡ₚ nodes) as Hnodes.
  { rewrite Hperm. rewrite snd_zip; [done|]. rewrite length_fmap. lia. }
  split.
  - rewrite <- Hnodes. eapply NoDup_objects_from, holds_regular, Hl.
  - by rewrite Hperm.
Qed.

End TreeUse.

(** ** Instances of the properties *)

(** A slot of 2016 bytes for a page that holds two small slots. *)
Lemma add_returns_a_fresh_object_witness :
  let pool := sized_pool [8; 16]%positive in
  let ty : @memory_pool.T sized := 2000%positive in
  memory_pool.ok pool
  ∧ memory_pool.footprint_exact ty < 2 ^ 63
  ∧ ∃ pg off pool',
      memory_pool.add ty pool = Ok (Ptr pg off, pool')
      ∧ memory_pool.ok pool'
      ∧ memory_pool.object_at pool' (Ptr pg off) = Some (memory_pool.ctor ty)
      ∧ ∀ k, k < Npos (memory_pool.sizeof ty) →
          ¬ memory_pool.live pool (Ptr pg (off + k))
          ∧ memory_pool.live pool' (Ptr pg (off + k)).
Proof.
  intros pool ty. split; [evaluate|]. split; [evaluate|].
  apply (@add_returns_a_fresh_object sized); evaluate.
Defined.

(** A third object behind two on the same page. *)
Lemma add_keeps_what_is_in_use_witness :
  let pool := sized_pool [2000; 8]%positive in
  let pool' := sized_pool [2000; 8; 104]%positive in
  let ty : @memory_pool.T sized := 104%positive in
  memory_pool.ok pool
  ∧ memory_pool.footprint_exact ty < 2 ^ 63
  ∧ memory_pool.add ty pool = Ok (Ptr 0 2056, pool')
  ∧ ∀ q, memory_pool.live pool q →
      memory_pool.live pool' q
      ∧ memory_pool.object_at pool' q = memory_pool.object_at pool q.
Proof.
  intros pool pool' ty.
  assert (memory_pool.ok pool) as Hok by evaluate.
  assert (memory_pool.footprint_exact ty < 2 ^ 63) as Hsmall by evaluate.
  assert (memory_pool.add ty pool = Ok (Ptr 0 2056, pool')) as Hadd
    by reflexivity.
  split; [done|]. split; [done|]. split; [done|].
  exact (proj2 (proj2 (@add_keeps_what_is_in_use sized ty pool _ pool'
                         Hok Hsmall Hadd))).
Defined.

(** The first page has 80 bytes left, the second 1080: a slot of 116
    bytes goes to the second. *)
Lemma add_takes_the_first_page_with_room_witness :
  let pool : @memory_pool.t sized := sized_pool [4000; 3000]%positive in
  let ty : @memory_pool.T sized := 100%positive in
  let p : @memory_pool.page sized :=
    default (memory_pool.page_ctor 0) (memory_pool._pages pool !! 1%nat) in
  memory_pool.ok pool
  ∧ memory_pool.footprint_exact ty < 2 ^ 63
  ∧ memory_pool._pages pool !! 1%nat = Some p
  ∧ memory_pool.footprint ty < memory_pool.room p
  ∧ (∀ j q, (j < 1)%nat → memory_pool._pages pool !! j = Some q →
            memory_pool.room q ≤ memory_pool.footprint ty)
  ∧ ∃ m,
      memory_pool.add ty pool
      = Ok (Ptr 1 (memory_pool.cursor p + memory_pool.offsetof_data),
            {| memory_pool._pages :=
                 <[1%nat := {| memory_pool.cursor :=
                                 memory_pool.cursor p + memory_pool.footprint ty;
                               memory_pool.memory := m |}]>
                   (memory_pool._pages pool) |})
      ∧ length m = length (memory_pool.memory p)
      ∧ memory_pool.cursor p + memory_pool.footprint ty < N.of_nat (length m).
Proof.
  intros pool ty p.
  assert (memory_pool.ok pool) as Hok by evaluate.
  assert (memory_pool.footprint_exact ty < 2 ^ 63) as Hsmall by evaluate.
  assert (memory_pool._pages pool !! 1%nat = Some p) as Hp
    by reflexivity.
  assert (memory_pool.footprint ty < memory_pool.room p) as Hroom by evaluate.
  assert (∀ j q, (j < 1)%nat → memory_pool._pages pool !! j = Some q →
                 memory_pool.room q ≤ memory_pool.footprint ty) as Hbefore.
  { intros [|j] q Hj Hq; [|lia]. injection Hq as <-. evaluate. }
  do 5 (split; [done|]).
  exact (@add_takes_the_first_page_with_room sized ty pool 1%nat p
           Hok Hsmall Hp Hroom Hbefore).
Defined.

(** A page with exactly the 1080 bytes left that the slot needs: the
    slot goes to a new page. *)
Lemma add_appends_a_page_iff_no_page_has_room_witness :
  let pool := sized_pool [3000]%positive in
  let pool' := sized_pool [3000; 1064]%positive in
  let ty : @memory_pool.T sized := 1064%positive in
  memory_pool.ok pool
  ∧ memory_pool.footprint_exact ty < 2 ^ 63
  ∧ memory_pool.add ty pool = Ok (Ptr 1 16, pool')
  ∧ Forall (λ p, memory_pool.room p = memory_pool.footprint ty)
      (memory_pool._pages pool)
  ∧ (length (memory_pool._pages pool') = S (length (memory_pool._pages pool))
     ↔ Forall (λ p, memory_pool.room p ≤ memory_pool.footprint ty)
         (memory_pool._pages pool)).
Proof.
  intros pool pool' ty.
  assert (memory_pool.ok pool) as Hok by evaluate.
  assert (memory_pool.footprint_exact ty < 2 ^ 63) as Hsmall by evaluate.
  assert (memory_pool.add ty pool = Ok (Ptr 1 16, pool')) as Hadd
    by reflexivity.
  split; [done|]. split; [done|]. split; [done|]. split; [evaluate|].
  exact (@add_appends_a_page_iff_no_page_has_room sized ty pool _ pool'
           Hok Hsmall Hadd).
Defined.

(** Seven objects on three pages. *)
Lemma add_returns_aligned_addresses_witness :
  let tys : list (@memory_pool.T sized) :=
    [8; 16; 2000; 2000; 8; 104; 4000]%positive in
  Forall (@memory_pool.regular sized) tys
  ∧ ∃ ptrs (pool : @memory_pool.t sized),
      @memory_pool.add_all sized tys memory_pool.empty = Ok (ptrs, pool)
      ∧ length ptrs = length tys
      ∧ Forall (λ a : @memory_pool.T sized * pointer,
           ∃ pg off, a.2 = Ptr pg off ∧ off `mod` 8 = 0
                     ∧ memory_pool.offsetof_data ≤ off
                     ∧ off + Npos (memory_pool.sizeof a.1) < 4096)
          (zip tys ptrs).
Proof.
  intros tys. split; [evaluate|].
  apply (@add_returns_aligned_addresses sized). evaluate.
Defined.

(** An object of 4080 bytes, whose slot takes 4096. *)
Lemma clear_strays_behind_a_large_slot_witness :
  let ty : @memory_pool.T sized := 4080%positive in
  4096 ≤ memory_pool.footprint_exact ty
  ∧ memory_pool.footprint_exact ty < 2 ^ 63
  ∧ ∃ pool,
      memory_pool.add ty memory_pool.empty
      = Ok (Ptr 0 memory_pool.offsetof_data, pool)
      ∧ page_sizes pool
        = [(memory_pool.footprint ty, memory_pool.footprint ty)]
      ∧ memory_pool.clear pool
        = memory_pool.Astray
            [memory_pool.Call (wrap (memory_pool.dtor ty))
               (Ptr 0 memory_pool.offsetof_data)].
Proof.
  intros ty. split; [evaluate|]. split; [evaluate|].
  apply (@clear_strays_behind_a_large_slot sized); evaluate.
Defined.

(** A [Technique] for a tree that holds a [Pass] and a [Variable]. *)
Lemma make_node_keeps_the_nodes_witness :
  let l : @Lexer.location plain_lexer := ("effect.fx"%string, 40, 1) in
  let tree : @nodetree.t plain_lexer plain_abi :=
    @grown_tree plain_lexer plain_abi
      [(shape.Pass, ("effect.fx"%string, 12, 5));
       (shape.Variable_, ("effect.fx"%string, 3, 9))] in
  memory_pool.ok (nodetree._pool tree)
  ∧ @memory_pool.footprint_exact (@nodetree.env plain_lexer plain_abi)
      shape.Technique < 2 ^ 63
  ∧ memory_pool.live (nodetree._pool tree) (Ptr 0 16)
  ∧ ∃ node tree',
      nodetree.make_node shape.Technique l tree = Ok (node, tree')
      ∧ ¬ memory_pool.live (nodetree._pool tree) node
      ∧ memory_pool.live (nodetree._pool tree') node
      ∧ (∀ q, memory_pool.live (nodetree._pool tree) q →
           memory_pool.live (nodetree._pool tree') q
           ∧ nodetree.deref (nodetree._pool tree') q
             = nodetree.deref (nodetree._pool tree) q)
      ∧ nodetree.structs tree' = nodetree.structs tree
      ∧ nodetree.uniforms tree' = nodetree.uniforms tree
      ∧ nodetree.functions tree' = nodetree.functions tree
      ∧ nodetree.techniques tree' = nodetree.techniques tree.
Proof.
  intros l tree. split; [evaluate|]. split; [evaluate|].
  split; [eexists; split; [reflexivity|evaluate]|].
  apply (@make_node_keeps_the_nodes plain_lexer plain_abi); evaluate.
Defined.

(** A [Technique], a [Pass] and a [Variable] in an empty tree. *)
Lemma tree_destroys_each_node_once_witness :
  let requests : list (shape.t * @Lexer.location plain_lexer) :=
    [(shape.Technique, ("effect.fx"%string, 40, 1));
     (shape.Pass, ("effect.fx"%string, 42, 5));
     (shape.Variable_, ("effect.fx"%string, 3, 9))] in
  Forall (λ r, @memory_pool.regular (@nodetree.env plain_lexer plain_abi) r.1)
    requests
  ∧ ∃ nodes (tree : @nodetree.t plain_lexer plain_abi) pool' calls,
      nodetree.make_nodes requests nodetree.empty = Ok (nodes, tree)
      ∧ nodetree.destructor tree = memory_pool.Returned pool' calls
      ∧ length nodes = length requests
      ∧ NoDup nodes
      ∧ calls ≡ₚ @memory_pool.destroys (@nodetree.env plain_lexer plain_abi)
                   <$> zip requests.*1 nodes.
Proof.
  intros requests. split; [evaluate|].
  apply (@tree_destroys_each_node_once plain_lexer plain_abi). evaluate.
Defined.

(** A [Technique] and a [Pass] for a tree that holds a [Variable]. *)
Lemma make_nodes_keep_their_nodes_witness :
  let tree : @nodetree.t plain_lexer plain_abi :=
    @grown_tree plain_lexer plain_abi
      [(shape.Variable_, ("effect.fx"%string, 3, 9))] in
  let requests : list (shape.t * @Lexer.location plain_lexer) :=
    [(shape.Technique, ("effect.fx"%string, 40, 1));
     (shape.Pass, ("effect.fx"%string, 42, 5))] in
  memory_pool.ok (nodetree._pool tree)
  ∧ Forall (λ r, @memory_pool.footprint_exact
                   (@nodetree.env plain_lexer plain_abi) r.1 < 2 ^ 63) requests
  ∧ ∃ nodes tree',
      nodetree.make_nodes requests tree = Ok (nodes, tree')
      ∧ memory_pool.ok (nodetree._pool tree')
      ∧ NoDup nodes
      ∧ Forall2 (λ r node,
           ∃ o, nodetree.deref (nodetree._pool tree') node = Some o
                ∧ o = assign_location r.2 (construct r.1)
                ∧ id (header o) = shape.tag r.1
                ∧ location (header o) = r.2) requests nodes.
Proof.
  intros tree requests. split; [evaluate|]. split; [evaluate|].
  apply (@make_nodes_keep_their_nodes plain_lexer plain_abi); evaluate.
Defined.
